(** * Hue bulb replacer: a shallow embedding of [script/app.js]

    The development follows the migration code of the browser tool: the
    recursive reference scanner [addLightReference], the rule helper
    [itemAddressExists] and the steps of the click handlers of
    [fetchLightsBtn] and [startReplacementBtn].  Remote calls are modelled by
    explicit bridge state or by response oracles; a thrown error caught by a
    [try]/[catch] is a [Err] response. *)

From Stdlib Require Import ZArith String Ascii List Bool Lia.
From stdpp Require Import base option list strings gmap pretty.

Open Scope string_scope.
Open Scope list_scope.
Set Warnings "-register-all".

(** ** JavaScript values

    Parsed JSON as the script holds it in memory.  [VUndef] is the value of a
    missing property and of a variable read from a map that lacks the key.
    Objects keep their properties in insertion order. *)

Inductive value : Type :=
| VUndef
| VNull
| VBool (b : bool)
| VNum (n : Z)
| VStr (s : string)
| VArr (items : list value)
| VObj (props : list (string * value)).

(** [typeof v === 'object'] holds of [null], arrays and plain objects. *)
Definition typeof_object (v : value) : bool :=
  match v with
  | VNull | VArr _ | VObj _ => true
  | _ => false
  end.

Definition isArray (v : value) : bool :=
  match v with
  | VArr _ => true
  | _ => false
  end.

Definition is_null (v : value) : bool :=
  match v with
  | VNull => true
  | _ => false
  end.

(** First property of an object with the given key. *)
Fixpoint assoc {A : Type} (k : string) (props : list (string * A)) : option A :=
  match props with
  | [] => None
  | (k', v) :: rest => if String.eqb k k' then Some v else assoc k rest
  end.

(** [v.k] for a key that is neither an index nor [length]: a missing property
    reads as [undefined]; arrays have no such property. *)
Definition getprop (v : value) (k : string) : value :=
  match v with
  | VObj props => default VUndef (assoc k props)
  | _ => VUndef
  end.

(** A string-or-undefined variable of the script as a value. *)
Definition prim (r : option string) : value :=
  match r with
  | Some s => VStr s
  | None => VUndef
  end.

(** [v === r] where [r] is a string or [undefined]. *)
Definition strict_eq (v : value) (r : option string) : bool :=
  match v, r with
  | VStr a, Some b => String.eqb a b
  | VUndef, None => true
  | _, _ => false
  end.

(** ** The reference scanner, [addLightReference] *)

(** The test of lines 404 and 406:
    [typeof item === 'object' && item !== null && item.rid === rid &&
     item.rtype === 'light']. *)
Definition is_light_ref (rid : option string) (item : value) : bool :=
  typeof_object item && negb (is_null item)
  && strict_eq (getprop item "rid") rid
  && strict_eq (getprop item "rtype") (Some "light").

(** The object literal [{rid: newLightRid, rtype: 'light'}]. *)
Definition mk_ref (rid : option string) : value :=
  VObj [("rid", prim rid); ("rtype", VStr "light")].

(** The [for] loop over an array (lines 401-422).  [obj] is the array as it
    stands, [i] the loop index; [obj.length] is read again at every turn, so
    an element pushed by the loop is visited too.  [rec] is the recursive
    call; its result replaces the item, which the script mutates in place. *)
Fixpoint array_loop (oldLightRid newLightRid : option string)
    (rec : value -> option (value * bool))
    (fuel : nat) (i : nat) (obj : list value) (modified : bool)
    : option (list value * bool) :=
  match obj !! i with
  | None => Some (obj, modified)
  | Some item =>
    match fuel with
    | O => None
    | S fuel' =>
      if is_light_ref oldLightRid item then
        let newLightExists := existsb (is_light_ref newLightRid) obj in
        if negb newLightExists then
          array_loop oldLightRid newLightRid rec fuel' (S i)
            (obj ++ [mk_ref newLightRid]) true
        else
          array_loop oldLightRid newLightRid rec fuel' (S i) obj modified
      else if typeof_object item || isArray item then
        match rec item with
        | None => None
        | Some (item', m) =>
          array_loop oldLightRid newLightRid rec fuel' (S i)
            (<[i := item']> obj) (if m then true else modified)
        end
      else
        array_loop oldLightRid newLightRid rec fuel' (S i) obj modified
    end
  end.

(** The [for ... in] loop over the own properties of an object (lines
    425-435); a JavaScript object has each key once, so [obj[key]] is the
    value of the property at hand. *)
Fixpoint object_loop (rec : value -> option (value * bool))
    (props : list (string * value)) (modified : bool)
    : option (list (string * value) * bool) :=
  match props with
  | [] => Some ([], modified)
  | (key, v) :: rest =>
    if typeof_object v || isArray v then
      match rec v with
      | None => None
      | Some (v', m) =>
        match object_loop rec rest (if m then true else modified) with
        | None => None
        | Some (rest', m') => Some ((key, v') :: rest', m')
        end
      end
    else
      match object_loop rec rest modified with
      | None => None
      | Some (rest', m') => Some ((key, v) :: rest', m')
      end
  end.

(** [addLightReference(obj, oldLightRid, newLightRid)]: the mutated [obj] and
    the returned flag.  [fuel] bounds the recursion depth and the number of
    turns of each array loop; [None] is fuel exhausted. *)
Fixpoint addLightReference (fuel : nat) (obj : value)
    (oldLightRid newLightRid : option string) : option (value * bool) :=
  match fuel with
  | O => None
  | S fuel' =>
    let rec := fun v => addLightReference fuel' v oldLightRid newLightRid in
    match obj with
    | VArr items =>
      match array_loop oldLightRid newLightRid rec fuel' 0 items false with
      | None => None
      | Some (items', m) => Some (VArr items', m)
      end
    | VObj props =>
      match object_loop rec props false with
      | None => None
      | Some (props', m) => Some (VObj props', m)
      end
    | _ => Some (obj, false)
    end
  end.

(** Number of nodes of a value; [S (S (vsize v))] is enough fuel for [v]. *)
Fixpoint vsize (v : value) : nat :=
  match v with
  | VArr items => S (list_sum (map vsize items))
  | VObj props => S (list_sum (map (fun kv => vsize (snd kv)) props))
  | _ => 1
  end.

Definition scan_fuel (v : value) : nat := S (S (vsize v)).

(** Children of a node, by position: the elements of an array, the property
    values of an object.  A path is a list of positions from the root. *)
Definition children (v : value) : list value :=
  match v with
  | VArr items => items
  | VObj props => map snd props
  | _ => []
  end.

Fixpoint subval (v : value) (p : list nat) : option value :=
  match p with
  | [] => Some v
  | i :: p' =>
    match children v !! i with
    | Some c => subval c p'
    | None => None
    end
  end.

(** The node at [p] is reached by the scanner: no array element on the way
    to it is itself a reference to the old light (the [else if] of line 416
    is not taken for such an element). *)
Fixpoint reached (oldLightRid : option string) (v : value) (p : list nat) : bool :=
  match p with
  | [] => true
  | i :: p' =>
    match children v !! i with
    | Some c =>
      negb (isArray v && is_light_ref oldLightRid c) && reached oldLightRid c p'
    | None => false
    end
  end.

(** The effect of the scanner by structural recursion: an element that is a
    reference to the old light is kept as it is, any other element is
    scanned, and the new reference is appended to an array that has a
    reference to the old light and none to the new one.  [scanner_result]
    proves that [addLightReference] computes [scan_tree] and [scan_mod]. *)
Fixpoint scan_tree (old new : option string) (v : value) : value :=
  match v with
  | VArr items =>
    let items' :=
      map (fun x => if is_light_ref old x then x else scan_tree old new x) items in
    VArr (if existsb (is_light_ref old) items
             && negb (existsb (is_light_ref new) items)
          then items' ++ [mk_ref new] else items')
  | VObj props => VObj (map (fun '(k, x) => (k, scan_tree old new x)) props)
  | _ => v
  end.

Fixpoint scan_mod (old new : option string) (v : value) : bool :=
  match v with
  | VArr items =>
    existsb (fun x => negb (is_light_ref old x) && scan_mod old new x) items
    || (existsb (is_light_ref old) items && negb (existsb (is_light_ref new) items))
  | VObj props => existsb (fun '(k, x) => scan_mod old new x) props
  | _ => false
  end.

(** Number of elements of an array that refer to the light [rid]. *)
Fixpoint count_refs (rid : option string) (items : list value) : nat :=
  match items with
  | [] => 0
  | x :: rest => (if is_light_ref rid x then 1 else 0) + count_refs rid rest
  end.

(** Two nodes with the same frame: equal scalars, two arrays, or two objects
    with the same keys in the same order. *)
Definition same_node (w w' : value) : Prop :=
  match w, w' with
  | VArr _, VArr _ => True
  | VObj props, VObj props' => map fst props = map fst props'
  | _, _ => w = w'
  end.

(** ** Strings and JSON text *)

(** [s.startsWith(p)]. *)
Fixpoint startsWith (s p : string) {struct p} : bool :=
  match p with
  | EmptyString => true
  | String c p' =>
    match s with
    | EmptyString => false
    | String d s' => if Ascii.eqb c d then startsWith s' p' else false
    end
  end.

(** [s.substring(n)]: [s] without its first [n] characters. *)
Fixpoint substring_from (n : nat) (s : string) : string :=
  match n, s with
  | O, _ => s
  | S n', String _ s' => substring_from n' s'
  | S _, EmptyString => EmptyString
  end.

(** [s.includes(sub)]. *)
Fixpoint includes (s sub : string) : bool :=
  if startsWith s sub then true
  else
    match s with
    | EmptyString => false
    | String _ s' => includes s' sub
    end.

(** [String(r)] for a string-or-undefined [r], as [includes] coerces its
    argument. *)
Definition to_string (r : option string) : string :=
  match r with
  | Some s => s
  | None => "undefined"
  end.

(** Truthiness of a string-or-undefined variable. *)
Definition truthy_str (r : option string) : bool :=
  match r with
  | Some EmptyString | None => false
  | Some _ => true
  end.

Definition truthy (v : value) : bool :=
  match v with
  | VUndef | VNull | VBool false | VNum 0%Z | VStr EmptyString => false
  | _ => true
  end.

(** [JSON.parse(JSON.stringify(v))] on an array or object: a deep copy in
    which a property holding [undefined] is dropped and an array element
    holding [undefined] becomes [null]. *)
Fixpoint json_copy (v : value) : value :=
  match v with
  | VArr items =>
    VArr (map (fun x => match x with VUndef => VNull | _ => json_copy x end) items)
  | VObj props =>
    VObj (flat_map
            (fun '(k, x) => match x with
                            | VUndef => []
                            | _ => [(k, json_copy x)]
                            end) props)
  | _ => v
  end.

(** Values that are parsed JSON: no [undefined] inside. *)
Fixpoint is_json (v : value) : bool :=
  match v with
  | VUndef => false
  | VArr items => forallb is_json items
  | VObj props => forallb (fun kv => is_json (snd kv)) props
  | _ => true
  end.

Definition quote : string := String (ascii_of_nat 34) EmptyString.

Definition hex_digit (n : nat) : ascii :=
  ascii_of_nat (if Nat.ltb n 10 then 48 + n else 87 + n).

(** The escape of one character in a JSON string literal. *)
Definition escape_char (c : ascii) : string :=
  let n := nat_of_ascii c in
  if Nat.eqb n 34 then "\" +:+ quote
  else if Nat.eqb n 92 then "\\"
  else if Nat.eqb n 8 then "\b"
  else if Nat.eqb n 9 then "\t"
  else if Nat.eqb n 10 then "\n"
  else if Nat.eqb n 12 then "\f"
  else if Nat.eqb n 13 then "\r"
  else if Nat.ltb n 32 then
    "\u00" +:+ String (hex_digit (n / 16)) (String (hex_digit (n mod 16)) EmptyString)
  else String c EmptyString.

Fixpoint escape (s : string) : string :=
  match s with
  | EmptyString => EmptyString
  | String c s' => escape_char c +:+ escape s'
  end.

Definition json_string (s : string) : string := quote +:+ escape s +:+ quote.

Fixpoint join (sep : string) (l : list string) : string :=
  match l with
  | [] => EmptyString
  | [x] => x
  | x :: rest => x +:+ sep +:+ join sep rest
  end.

(** [JSON.stringify(v)] for a value other than [undefined]; integers print in
    decimal.  Inside an array [undefined] prints as [null]; a property
    holding [undefined] is left out. *)
Fixpoint stringify (v : value) : string :=
  match v with
  | VUndef | VNull => "null"
  | VBool true => "true"
  | VBool false => "false"
  | VNum n => pretty n
  | VStr s => json_string s
  | VArr items => "[" +:+ join "," (map stringify items) +:+ "]"
  | VObj props =>
    "{" +:+ join ","
          (flat_map (fun '(k, x) => match x with
                                    | VUndef => []
                                    | _ => [json_string k +:+ ":" +:+ stringify x]
                                    end) props) +:+ "}"
  end.

(** [JSON.stringify(v)]: [undefined] has no JSON text. *)
Definition JSON_stringify (v : value) : option string :=
  match v with
  | VUndef => None
  | _ => Some (stringify v)
  end.

(** ** Remote calls

    A call of [apiRequest] is recorded by the API it addresses, its method,
    its path below the base URL and its body.  A response is the parsed body
    or a thrown error. *)

Inductive api : Type := V1 | V2.

Record request : Type := {
  r_api : api;
  r_method : string;
  r_path : string;
  r_body : option value
}.

Definition GET (a : api) (path : string) : request :=
  {| r_api := a; r_method := "GET"; r_path := path; r_body := None |}.

Definition PUT (a : api) (path : string) (body : value) : request :=
  {| r_api := a; r_method := "PUT"; r_path := path; r_body := Some body |}.

Definition is_put (r : request) : bool := String.eqb (r_method r) "PUT".

Inductive result (A : Type) : Type :=
| Ok (a : A)
| Err (message : string).

Arguments Ok {A} a.
Arguments Err {A} message.

(** [l.includes(x)] on an array of strings. *)
Definition list_includes (l : list string) (x : string) : bool :=
  existsb (String.eqb x) l.

(** [o?.lights?.includes(x)] is falsy when the list is missing. *)
Definition opt_includes (l : option (list string)) (x : string) : bool :=
  match l with
  | Some l => list_includes l x
  | None => false
  end.

Definition str_array (l : list string) : value := VArr (map VStr l).

(** ** Identifier reconciler (click handler of [fetchLightsBtn]) *)

Record v1light : Type := { name : string }.

(** A light resource of the modern API: its GUID and its back-reference to
    the legacy path, when it has one. *)
Record v2light : Type := { id : string; id_v1 : option string }.

Definition is_digit (c : ascii) : bool :=
  let n := nat_of_ascii c in Nat.leb 48 n && Nat.leb n 57.

Fixpoint all_digits (s : string) : bool :=
  match s with
  | EmptyString => true
  | String c s' => is_digit c && all_digits s'
  end.

(** A match of [/\/lights\/(\d+)$/] that starts at the head of [s]: the
    captured digits. *)
Definition match_here (s : string) : option string :=
  if startsWith s "/lights/" then
    let d := substring_from 8 s in
    match d with
    | EmptyString => None
    | _ => if all_digits d then Some d else None
    end
  else None.

(** [s.match(/\/lights\/(\d+)$/)]: group 1 of the leftmost match. *)
Fixpoint v1IdMatch (s : string) : option string :=
  match match_here s with
  | Some d => Some d
  | None =>
    match s with
    | EmptyString => None
    | String _ s' => v1IdMatch s'
    end
  end.

(** The legacy id a resource refers back to: group 1 of the match on a
    truthy [id_v1]. *)
Definition backref (light : v2light) : option string :=
  if truthy_str (id_v1 light) then v1IdMatch (to_string (id_v1 light)) else None.

(** The body of the [forEach] of lines 310-320. *)
Definition add_light_to_map (m : gmap string string) (light : v2light)
    : gmap string string :=
  if truthy_str (id_v1 light) then
    match v1IdMatch (to_string (id_v1 light)) with
    | Some k => <[k := id light]> m
    | None => m
    end
  else m.

Definition build_v1ToV2IdMap (data : list v2light) : gmap string string :=
  fold_left add_light_to_map data ∅.

(** The state variables the handler sets. *)
Record lights_state : Type := {
  allV1Lights : option (list (string * v1light));
  v1ToV2IdMap : option (gmap string string)
}.

(** The handler on the two responses; [Ok None] is a body that fails the
    shape test of line 290 or 301.  Any failure clears both variables. *)
Definition fetchLights (v1Data : result (option (list (string * v1light))))
    (v2Data : result (option (list v2light))) : lights_state :=
  match v1Data, v2Data with
  | Ok (Some lights), Ok (Some data) =>
    {| allV1Lights := Some lights;
       v1ToV2IdMap := Some (build_v1ToV2IdMap data) |}
  | _, _ => {| allV1Lights := None; v1ToV2IdMap := None |}
  end.

(** The spec's pattern: a path ending in [/lights/{numericId}]. *)
Definition ends_in_lights_id (path k : string) : Prop :=
  exists pre, path = pre +:+ "/lights/" +:+ k /\ k <> "" /\ all_digits k = true.

(** ** Start of the replacement (lines 455-488) *)

Record plan : Type := {
  oldV1 : string;
  newV1 : string;
  oldLightV2Id : option string;
  newLightV2Id : option string;
  originalOldLightName : string
}.

(** The guards of lines 455-470 and the lookups of lines 473-474 and 515;
    [None] is an early [return].  A missing GUID does not stop the run. *)
Definition start_plan (st : lights_state)
    (selectedOldLightV1Id selectedNewLightV1Id : option string) : option plan :=
  if negb (truthy_str selectedOldLightV1Id) || negb (truthy_str selectedNewLightV1Id)
     || String.eqb (to_string selectedOldLightV1Id) (to_string selectedNewLightV1Id)
  then None
  else
    let o := to_string selectedOldLightV1Id in
    let n := to_string selectedNewLightV1Id in
    match allV1Lights st with
    | None => None
    | Some lights =>
      match assoc o lights, assoc n lights with
      | Some ol, Some _ =>
        match v1ToV2IdMap st with
        | None => None
        | Some m =>
          Some {| oldV1 := o; newV1 := n;
                  oldLightV2Id := m !! o; newLightV2Id := m !! n;
                  originalOldLightName := name ol |}
        end
      | _, _ => None
      end
    end.

(** ** Group migrator (steps 1 and 2, lines 539-573) *)

Record group : Type := { g_lights : option (list string) }.

(** Step 1: the ids of [groupsData] whose [lights] include the old bulb. *)
Fixpoint groupsWithOldLight (old : string) (groupsData : list (string * group))
    : list string :=
  match groupsData with
  | [] => []
  | (groupId, g) :: rest =>
    if opt_includes (g_lights g) old
    then groupId :: groupsWithOldLight old rest
    else groupsWithOldLight old rest
  end.

(** The [PUT] of line 563. *)
Definition group_put (groupId : string) (updatedLights : list string) : request :=
  PUT V1 ("groups/" +:+ groupId) (VObj [("lights", str_array updatedLights)]).

(** *** The bridge's side

    The groups the bridge holds are a list of entries with distinct ids.  A
    [PUT] on [groups/{id}] that the bridge accepts, and whose body has an
    array of strings as [lights], replaces the lights of that group by the
    array of the body; the bridge reads nothing else of the call. *)

Fixpoint update_first {A : Type} (k : string) (f : A -> A)
    (l : list (string * A)) : list (string * A) :=
  match l with
  | [] => []
  | (k', a) :: rest =>
    if String.eqb k k' then (k', f a) :: rest
    else (k', a) :: update_first k f rest
  end.

Fixpoint strings_of (items : list value) : option (list string) :=
  match items with
  | [] => Some []
  | VStr s :: rest =>
    match strings_of rest with
    | Some l => Some (s :: l)
    | None => None
    end
  | _ => None
  end.

(** The [lights] a body carries. *)
Definition body_lights (body : option value) : option (list string) :=
  match body with
  | Some (VObj props) =>
    match assoc "lights" props with
    | Some (VArr items) => strings_of items
    | _ => None
    end
  | _ => None
  end.

Definition bridge_store (req : request) (groups : list (string * group))
    : list (string * group) :=
  if is_put req && startsWith (r_path req) "groups/" then
    match body_lights (r_body req) with
    | Some lights =>
      update_first (substring_from 7 (r_path req))
        (fun _ => {| g_lights := Some lights |}) groups
    | None => groups
    end
  else groups.

(** The body of [GET groups/{id}]: the group the bridge holds; for an id it
    does not hold, the bridge answers with an error envelope, a body without
    [lights]. *)
Definition group_body (groups : list (string * group)) (groupId : string) : group :=
  default {| g_lights := None |} (assoc groupId groups).

(** Step 2 against the groups the bridge holds.  [ok] tells whether a call
    gets its answer; a call that does not throws.  Every group of the list
    is read again (line 557); a failed read is logged and the loop goes on
    (lines 570-572); a group that lacks the new bulb is written (line 563),
    and a refused write is logged in the same way.  The result is the
    bridge's groups after the loop and the calls made. *)
Fixpoint add_to_groups (ok : request -> bool) (new : string)
    (ids : list string) (groups : list (string * group))
    : list (string * group) * list request :=
  match ids with
  | [] => (groups, [])
  | groupId :: rest =>
    let get := GET V1 ("groups/" +:+ groupId) in
    if ok get then
      let currentLights := default [] (g_lights (group_body groups groupId)) in
      if negb (list_includes currentLights new) then
        let updatedLights := currentLights ++ [new] in
        let put := group_put groupId updatedLights in
        let stored := if ok put then bridge_store put groups else groups in
        let '(groups', calls) := add_to_groups ok new rest stored in
        (groups', get :: put :: calls)
      else
        let '(groups', calls) := add_to_groups ok new rest groups in
        (groups', get :: calls)
    else
      let '(groups', calls) := add_to_groups ok new rest groups in
      (groups', get :: calls)
  end.


(** Steps 1 and 2.  The read of line 541 is not inside a [try] of its own:
    when it fails, the error goes to the [catch] of line 931 and nothing
    else is done. *)
Definition group_migration (ok : request -> bool) (old new : string)
    (groups : list (string * group)) : list (string * group) * list request :=
  if ok (GET V1 "groups") then
    let '(groups', calls) :=
      add_to_groups ok new (groupsWithOldLight old groups) groups in
    (groups', GET V1 "groups" :: calls)
  else (groups, [GET V1 "groups"]).

(** ** Scene migrator (step 3, lines 576-644) *)

(** A scene in full: its light list and its per-light states, each state an
    object. *)
Record scene : Type := {
  s_lights : option (list string);
  s_lightstates : option (list (string * list (string * value)))
}.

(** [scene?.lightstates?.[id]]; a state is an object, hence truthy. *)
Definition lightstate_of (sc : scene) (lightId : string)
    : option (list (string * value)) :=
  match s_lightstates sc with
  | Some states => assoc lightId states
  | None => None
  end.

(** The test of lines 586-590. *)
Definition involves_old (old : string) (sc : scene) : bool :=
  opt_includes (s_lights sc) old || bool_decide (is_Some (lightstate_of sc old)).

(** The fetch of one scene in full. *)
Definition scene_get (sceneId : string) : request := GET V1 ("scenes/" +:+ sceneId).

(** First pass: every scene of [scenesData] is fetched; a failed fetch is
    logged and the loop goes on.  The result is [scenesWithOldLight] and the
    calls made. *)
Fixpoint discover_scenes (fetch : string -> result scene) (old : string)
    (sceneIds : list string) : list (string * scene) * list request :=
  match sceneIds with
  | [] => ([], [])
  | sceneId :: rest =>
    let '(found, calls) := discover_scenes fetch old rest in
    let get := scene_get sceneId in
    match fetch sceneId with
    | Ok sc =>
      if involves_old old sc then ((sceneId, sc) :: found, get :: calls)
      else (found, get :: calls)
    | Err _ => (found, get :: calls)
    end
  end.

Definition scene_lights_update (new : string) (sceneId : string) (sc : scene)
    (old : string) : list request :=
  if opt_includes (s_lights sc) old && negb (opt_includes (s_lights sc) new) then
    [PUT V1 ("scenes/" +:+ sceneId)
       (VObj [("lights", str_array (default [] (s_lights sc) ++ [new]))])]
  else [].

(** Second pass on one stored scene: the calls made.  A refused state copy
    throws to the outer [catch], which ends the work on this scene. *)
Definition modify_scene (put_ok : request -> bool) (old new : string)
    (info : string * scene) : list request :=
  let '(sceneId, sc) := info in
  match lightstate_of sc old with
  | Some oldLightState =>
    let copy :=
      PUT V1 ("scenes/" +:+ sceneId +:+ "/lightstates/" +:+ new) (VObj oldLightState) in
    if put_ok copy then copy :: scene_lights_update new sceneId sc old
    else [copy]
  | None => scene_lights_update new sceneId sc old
  end.

(** Step 3: the scenes found and the calls, in the order they are made. *)
Definition scene_step (fetch : string -> result scene) (put_ok : request -> bool)
    (old new : string) (sceneIds : list string)
    : list (string * scene) * list request :=
  let '(found, calls) := discover_scenes fetch old sceneIds in
  (found, GET V1 "scenes" :: calls ++ flat_map (modify_scene put_ok old new) found).

(** ** Rule migrator (lines 646-758) *)

(** A condition or an action: its [address], when it has one, and its other
    fields. *)
Record item : Type := {
  address : option string;
  fields : list (string * value)
}.

(** An item whose fields are parsed JSON. *)
Definition json_item (it : item) : bool :=
  forallb (fun kv => is_json (snd kv)) (fields it).

Record rule : Type := {
  conditions : option (list item);
  actions : option (list item)
}.

(** [itemAddressExists(itemsArray, newAddress)]. *)
Definition itemAddressExists (itemsArray : option (list item)) (newAddress : string)
    : bool :=
  match itemsArray with
  | None => false
  | Some items =>
    existsb (fun it => match address it with
                       | Some a => String.eqb a newAddress
                       | None => false
                       end) items
  end.

Definition lightAddressPrefix (lightId : string) : string :=
  "/lights/" +:+ lightId +:+ "/".

(** [JSON.parse(JSON.stringify(x))] on one item. *)
Definition copy_item (it : item) : item :=
  {| address := address it;
     fields := flat_map (fun '(k, x) => match x with
                                        | VUndef => []
                                        | _ => [(k, json_copy x)]
                                        end) (fields it) |}.

(** [condition.address && condition.address.startsWith(oldLightAddressPrefix)]. *)
Definition has_old_prefix (old : string) (it : item) : bool :=
  match address it with
  | Some a => startsWith a (lightAddressPrefix old)
  | None => false
  end.

(** [newLightAddressPrefix + address.substring(oldLightAddressPrefix.length)]. *)
Definition new_address (old new : string) (it : item) : string :=
  lightAddressPrefix new
  +:+ substring_from (String.length (lightAddressPrefix old))
        (default EmptyString (address it)).

(** [{...condition, address: newAddress}]. *)
Definition readdress (old new : string) (it : item) : item :=
  {| address := Some (new_address old new it); fields := fields it |}.

(** The two tests of the [forEach] body together: the address of [it] has the
    old prefix and the new address is not in the original list. *)
Definition to_add (old new : string) (original : option (list item)) (it : item)
    : bool :=
  has_old_prefix old it
  && negb (itemAddressExists original (new_address old new it)).

(** The body of one [forEach] (lines 683-703 and 710-730) on the pair
    (modified array, [needsUpdate]); [original] is [rule.conditions] or
    [rule.actions]. *)
Definition migrate_item (old new : string) (original : option (list item))
    (acc : list item * bool) (it : item) : list item * bool :=
  if has_old_prefix old it then
    if negb (itemAddressExists original (new_address old new it))
    then (fst acc ++ [readdress old new it], true)
    else acc
  else acc.

(** The modified array and the flag after the loop over one of the two
    arrays of a rule. *)
Definition migrate_items (old new : string) (original : option (list item))
    (needsUpdate : bool) : list item * bool :=
  match original with
  | Some items =>
    fold_left (migrate_item old new original) items (map copy_item items, needsUpdate)
  | None => ([], needsUpdate)
  end.

Record rule_payload : Type := {
  p_conditions : option (list item);
  p_actions : option (list item)
}.

(** One turn of the loop over the rules: the payload of the [PUT], if one is
    made. *)
Definition rule_update (old new : string) (r : rule) : option rule_payload :=
  let '(modifiedConditions, needs1) := migrate_items old new (conditions r) false in
  let '(modifiedActions, needsUpdate) := migrate_items old new (actions r) needs1 in
  if needsUpdate then
    let payload :=
      {| p_conditions :=
           if Nat.ltb 0 (length modifiedConditions) then Some modifiedConditions else None;
         p_actions :=
           if Nat.ltb 0 (length modifiedActions) then Some modifiedActions else None |} in
    match p_conditions payload, p_actions payload with
    | None, None => None
    | _, _ => Some payload
    end
  else None.

(** The loop over [allRules]: the rules written and their payloads. *)
Fixpoint rules_step (old new : string) (allRules : list (string * rule))
    : list (string * rule_payload) :=
  match allRules with
  | [] => []
  | (ruleId, r) :: rest =>
    match rule_update old new r with
    | Some payload => (ruleId, payload) :: rules_step old new rest
    | None => rules_step old new rest
    end
  end.

(** The items a pass may add: copies, at the new address, of original items
    whose address has the old prefix. *)
Definition added_from (old new : string) (original added : list item) : Prop :=
  Forall (fun it' => exists it, In it original /\ has_old_prefix old it = true
                                /\ it' = readdress old new it) added.

(** The addresses of a list of items. *)
Definition addresses (items : list item) : list string := omap address items.

(** ** Automation migrator (lines 760-823) *)

Record behavior_instance : Type := {
  bi_id : option string;
  bi_configuration : value
}.

Definition instance_path (instanceId : string) : string :=
  "resource/behavior_instance/" +:+ instanceId.

(** The work on one instance whose configuration text mentions the old
    GUID.  [detail] is [detailedInstanceData?.data?.[0]?.configuration], or
    the thrown error. *)
Definition update_instance (oldLightV2Id newLightV2Id : option string)
    (instanceId : string) (detail : result (option value)) : list request :=
  match detail with
  | Err _ => []
  | Ok None => []
  | Ok (Some originalConfig) =>
    if truthy originalConfig then
      let modifiedConfig := json_copy originalConfig in
      match addLightReference (scan_fuel modifiedConfig) modifiedConfig
              oldLightV2Id newLightV2Id with
      | Some (config', true) =>
        [PUT V2 (instance_path instanceId) (VObj [("configuration", config')])]
      | _ => []
      end
    else []
  end.

(** The loop over the behavior instances: the calls made.  It runs whatever
    the two GUIDs are; [includes] turns a missing one into the text
    [undefined]. *)
Fixpoint behavior_step (oldLightV2Id newLightV2Id : option string)
    (fetch : string -> result (option value))
    (allBehaviorInstances : list behavior_instance) : list request :=
  match allBehaviorInstances with
  | [] => []
  | instance :: rest =>
    let later := behavior_step oldLightV2Id newLightV2Id fetch rest in
    if negb (truthy_str (bi_id instance)) || negb (truthy (bi_configuration instance))
    then later
    else
      match JSON_stringify (bi_configuration instance) with
      | Some configString =>
        if includes configString (to_string oldLightV2Id) then
          let instanceId := to_string (bi_id instance) in
          GET V2 (instance_path instanceId)
          :: update_instance oldLightV2Id newLightV2Id instanceId (fetch instanceId)
          ++ later
        else later
      | None => later
      end
  end.

(** The automation step of a run, from the state the fetch left. *)
Definition automation_migration (st : lights_state)
    (selectedOldLightV1Id selectedNewLightV1Id : option string)
    (fetch : string -> result (option value))
    (allBehaviorInstances : list behavior_instance) : option (list request) :=
  match start_plan st selectedOldLightV1Id selectedNewLightV1Id with
  | Some p =>
    Some (behavior_step (oldLightV2Id p) (newLightV2Id p) fetch allBehaviorInstances)
  | None => None
  end.

(** A reference some of whose two fields is missing: what the bridge reads
    of [{rid: undefined, rtype: 'light'}]. *)
Definition partial_ref (v : value) : bool :=
  match v with
  | VObj props =>
    match assoc "rtype" props, assoc "rid" props with
    | Some (VStr "light"), (None | Some VUndef) => true
    | _, _ => false
    end
  | _ => false
  end.

(** ** Identity transfer: the two renames (lines 515-535 and 825-887) *)

(** [(oldBulbTargetName, newBulbTargetName)]. *)
Definition rename_strategy (useAltRename : bool) (originalOldLightName : string)
    : string * string :=
  if useAltRename
  then (originalOldLightName, originalOldLightName +:+ " (new)")
  else (originalOldLightName +:+ " (old)", originalOldLightName).

Definition v1_rename (lightId targetName : string) : request :=
  PUT V1 ("lights/" +:+ lightId) (VObj [("name", VStr targetName)]).

Definition v2_rename (guid targetName : string) : request :=
  PUT V2 ("resource/light/" +:+ guid)
    (VObj [("metadata", VObj [("name", VStr targetName)])]).

(** The modern rename is made only when the GUID was found. *)
Definition v2_rename_if_known (guid : option string) (targetName : string)
    : list request :=
  if truthy_str guid then [v2_rename (to_string guid) targetName] else [].

(** Step 4: the old bulb is renamed only if its target differs from its
    name.  A failed call is logged and the next one is still made. *)
Definition rename_old (p : plan) (oldBulbTargetName : string) : list request :=
  if negb (String.eqb oldBulbTargetName (originalOldLightName p)) then
    v1_rename (oldV1 p) oldBulbTargetName
    :: v2_rename_if_known (oldLightV2Id p) oldBulbTargetName
  else [].

(** Step 5. *)
Definition rename_new (p : plan) (newBulbTargetName : string) : list request :=
  v1_rename (newV1 p) newBulbTargetName
  :: v2_rename_if_known (newLightV2Id p) newBulbTargetName.

(** ** The replacement run (lines 454-940)

    The click handler of [startReplacementBtn], past its guards.  The steps
    share one [try]; the reads of the group list (line 541) and of the scene
    list (line 577) are the two calls that are not inside a [try] of their
    own, so that a failure of either ends the run at the [catch] of
    line 931.  Every other call is wrapped, and its failure is logged.
    The bodies the bridge returns have the shapes of the records above
    (groups, scenes, rules, behavior instances), on which the loops of the
    handler do not throw. *)

(** A call of the run.  The write of a rule is kept with its payload, the
    two arrays of items. *)
Inductive call : Type :=
| Api (r : request)
| RulePut (ruleId : string) (payload : rule_payload).

(** What the bridge answers during a run: whether a call on the groups or a
    write on the scenes gets its answer, the groups it holds, the ids of the
    scene list, every scene in full, the rules, the behavior instances
    ([Ok None] is a body without a [data] array) and every instance in
    full. *)
Record bridge_answers : Type := {
  b_ok : request -> bool;
  b_groups : list (string * group);
  b_scenesData : result (list string);
  b_scene : string -> result scene;
  b_rulesData : result (list (string * rule));
  b_behaviorData : result (option (list behavior_instance));
  b_instance : string -> result (option value)
}.

(** Lines 646-758: a failed read of the rules leaves [allRules] empty. *)
Definition rule_calls (old new : string) (rulesData : result (list (string * rule)))
    : list call :=
  let allRules := match rulesData with
                  | Ok rules => rules
                  | Err _ => []
                  end in
  Api (GET V1 "rules")
  :: map (fun '(ruleId, payload) => RulePut ruleId payload) (rules_step old new allRules).

(** Lines 760-823: a failed read of the instances, or a body without a
    [data] array, leaves [allBehaviorInstances] empty. *)
Definition behavior_calls (p : plan)
    (behaviorData : result (option (list behavior_instance)))
    (fetch : string -> result (option value)) : list request :=
  let allBehaviorInstances := match behaviorData with
                              | Ok (Some data) => data
                              | _ => []
                              end in
  GET V2 "resource/behavior_instance"
  :: behavior_step (oldLightV2Id p) (newLightV2Id p) fetch allBehaviorInstances.

(** Step 6 (lines 889-905).  [oldStartupConfig] is what line 493 reads off
    the old bulb in the fetched collection, [undefined] when the bulb has
    none. *)
Definition startup_step (newV1 : string) (oldStartupConfig : value) : list request :=
  if truthy oldStartupConfig then
    [PUT V1 ("lights/" +:+ newV1 +:+ "/config")
       (VObj [("startup", VObj [("mode", getprop oldStartupConfig "mode")])])]
  else [].

(** The run: [None] when a guard returns before any call; otherwise the
    calls made, in their order, and whether the run reached its summary
    ([false] when it ended at the [catch] of line 931). *)
Definition replacement (st : lights_state)
    (selectedOldLightV1Id selectedNewLightV1Id : option string)
    (useAltRename : bool) (oldStartupConfig : value) (b : bridge_answers)
    : option (list call * bool) :=
  match start_plan st selectedOldLightV1Id selectedNewLightV1Id with
  | None => None
  | Some p =>
    let '(oldBulbTargetName, newBulbTargetName) :=
      rename_strategy useAltRename (originalOldLightName p) in
    let group_calls :=
      snd (group_migration (b_ok b) (oldV1 p) (newV1 p) (b_groups b)) in
    if b_ok b (GET V1 "groups") then
      match b_scenesData b with
      | Ok sceneIds =>
        let scene_calls :=
          snd (scene_step (b_scene b) (b_ok b) (oldV1 p) (newV1 p) sceneIds) in
        Some (map Api (group_calls ++ scene_calls)
              ++ rule_calls (oldV1 p) (newV1 p) (b_rulesData b)
              ++ map Api (behavior_calls p (b_behaviorData b) (b_instance b)
                          ++ rename_old p oldBulbTargetName
                          ++ rename_new p newBulbTargetName
                          ++ startup_step (newV1 p) oldStartupConfig),
              true)
      | Err _ => Some (map Api (group_calls ++ [GET V1 "scenes"]), false)
      end
    else Some (map Api group_calls, false)
  end.

(** A request that is not addressed to a light: its path starts neither
    with [lights/] nor with [resource/light/]. *)
Definition off_lights (r : request) : Prop :=
  startsWith (r_path r) "lights/" = false
  /\ startsWith (r_path r) "resource/light/" = false.

(** ** The transport, [apiRequest] (lines 79-182) *)

(** The arguments of one call. *)
Record api_args : Type := {
  a_url : string;
  a_method : string;
  a_body : option value;
  a_apiUsername : option string;
  a_forceV2Header : bool
}.

(** [url.includes('/clip/v2/')]. *)
Definition is_v2_url (url : string) : bool := includes url "/clip/v2/".

(** The headers of [options] (lines 80-93): the application key for a modern
    URL when a user name is given and the call is not a plain [GET], and the
    content type when there is a body. *)
Definition request_headers (a : api_args) : list (string * string) :=
  (if is_v2_url (a_url a) && truthy_str (a_apiUsername a)
      && (negb (String.eqb (a_method a) "GET") || a_forceV2Header a)
   then [("hue-application-key", to_string (a_apiUsername a))] else [])
  ++ (if match a_body a with Some b => truthy b | None => false end
      then [("Content-Type", "application/json")] else []).

(** Lines 97-100: the URL that is fetched, and whether it was rewritten (a
    warning is logged then).  [replace(/^http:/, 'https:')] changes a URL
    that starts with [http:] and no other. *)
Definition correct_url (url : string) : string * bool :=
  if startsWith url "https://" then (url, false)
  else if startsWith url "http:" then ("https:" +:+ substring_from 5 url, true)
  else (url, true).

(** What the script reads of a response: [json_body] and [text_body] are
    the outcomes of [response.json()] and [response.text()]. *)
Record response : Type := {
  status : nat;
  content_type : option string;
  json_body : result value;
  text_body : result string
}.

(** [response.ok]. *)
Definition response_ok (r : response) : bool :=
  Nat.leb 200 (status r) && Nat.leb (status r) 299.

(** The outcome of [fetch]: a response, or a rejection with an error that
    is or is not a [TypeError]. *)
Inductive fetch_outcome : Type :=
| Responded (r : response)
| Rejected (isTypeError : bool) (message : string).

(** The text of a value inside a template literal. *)
Fixpoint js_string (v : value) : string :=
  match v with
  | VUndef => "undefined"
  | VNull => "null"
  | VBool true => "true"
  | VBool false => "false"
  | VNum n => pretty n
  | VStr s => s
  | VArr items =>
    join "," (map (fun x => match x with
                            | VUndef | VNull => EmptyString
                            | _ => js_string x
                            end) items)
  | VObj _ => "[object Object]"
  end.

(** [v[0]] on an array. *)
Definition index0 (v : value) : value :=
  match v with
  | VArr (x :: _) => x
  | _ => VUndef
  end.

(** Lines 114-139: the message of the error thrown for a response that is
    not ok.  [getprop] is [undefined] on [null] and [undefined], as [?.]
    is. *)
Definition error_details (r : response) : string :=
  let errorDetails := "HTTP error! Status: " +:+ pretty (status r) in
  let with_text :=
    match text_body r with
    | Ok t => errorDetails +:+ " - " +:+ t
    | Err _ => errorDetails
    end in
  match json_body r with
  | Ok errorData =>
    let v1desc := getprop (getprop (index0 errorData) "error") "description" in
    let v2desc := getprop (index0 (getprop errorData "errors")) "description" in
    if isArray errorData && truthy v1desc then
      errorDetails +:+ " - V1 Error: " +:+ js_string v1desc
    else if truthy (getprop errorData "errors") && isArray (getprop errorData "errors")
            && truthy v2desc then
      errorDetails +:+ " - V2 Error: " +:+ js_string v2desc
    else with_text
  | Err _ => with_text
  end.

(** Lines 155-158: the warning for a modern envelope.  When [data.errors] is
    a non-empty array the script reads [data.errors[0].description]; on a
    first element that is [null] or [undefined] that read throws a
    [TypeError].  Its text is the engine's own (V8's wording here).  The
    warning of lines 151-154 reads [data[0].error.description] only when
    [data[0].error] is truthy, and cannot throw. *)
Definition warning_throws (data : value) : option string :=
  match getprop data "errors" with
  | VArr (VNull :: _) => Some "Cannot read properties of null (reading 'description')"
  | VArr (VUndef :: _) =>
    Some "Cannot read properties of undefined (reading 'description')"
  | _ => None
  end.

(** The [catch] of lines 167-181 on an error thrown inside the [try]: a
    [TypeError] whose message mentions [fetch] is replaced, any other error
    is thrown again as it is. *)
Definition rethrow (url : string) (isTypeError : bool) (message : string)
    : result value :=
  if isTypeError && includes message "fetch" then
    if startsWith url "https://" then
      Err ("Network/Certificate Error: Could not connect securely to bridge at "
           +:+ url
           +:+ ". Did you trust the certificate in your browser (Step 3 in instructions)? Also check IP/Username and network connection.")
    else
      Err ("Network Error: Could not connect to bridge at " +:+ url
           +:+ ". Check IP/Username and network connection.")
  else Err message.

(** [apiRequest]: the value returned, or the message of the error thrown. *)
Definition apiRequest (a : api_args) (outcome : fetch_outcome) : result value :=
  let url := fst (correct_url (a_url a)) in
  match outcome with
  | Responded r =>
    if Nat.eqb (status r) 403 && is_v2_url url then
      Err ("API V2 Forbidden (403): Check if API Username '"
           +:+ (if truthy_str (a_apiUsername a) then to_string (a_apiUsername a) else "?")
           +:+ "' is valid and whitelisted.")
    else if Nat.eqb (status r) 404 && is_v2_url url then
      Err ("API V2 Not Found (404): Endpoint " +:+ url +:+ " does not exist.")
    else if negb (response_ok r) then Err (error_details r)
    else if truthy_str (content_type r)
            && includes (to_string (content_type r)) "application/json" then
      match json_body r with
      | Ok data =>
        match warning_throws data with
        | Some message => rethrow url true message
        | None => Ok data
        end
      | Err message => Err message
      end
    else Ok (VObj [("success", VBool true); ("status", VNum (Z.of_nat (status r)))])
  | Rejected isTypeError message => rethrow url isTypeError message
  end.

(** The base URLs of lines 279-280. *)
Definition apiV1BaseUrl (bridgeIp apiUser : string) : string :=
  "https://" +:+ bridgeIp +:+ "/api/" +:+ apiUser +:+ "/".

Definition apiV2BaseUrl (bridgeIp : string) : string :=
  "https://" +:+ bridgeIp +:+ "/clip/v2/".

(** The arguments the handlers give [apiRequest] for a recorded call: a
    legacy call has no user name; a modern call has [apiUser], and forces
    the header when it is a [GET] (lines 299, 764, 790, 809, 846, 879). *)
Definition call_args (bridgeIp apiUser : string) (r : request) : api_args :=
  match r_api r with
  | V1 =>
    {| a_url := apiV1BaseUrl bridgeIp apiUser +:+ r_path r;
       a_method := r_method r; a_body := r_body r;
       a_apiUsername := None; a_forceV2Header := false |}
  | V2 =>
    {| a_url := apiV2BaseUrl bridgeIp +:+ r_path r;
       a_method := r_method r; a_body := r_body r;
       a_apiUsername := Some apiUser;
       a_forceV2Header := String.eqb (r_method r) "GET" |}
  end.

(** ** The selection (lines 188-231) and the report of unmapped lights
    (lines 323-330) *)

(** What [updateConfirmation] sets, for a fetched collection: the two
    selected ids, the error text of step 2, whether the confirmation is
    shown with which two names, and whether the start button is disabled. *)
Record confirmation : Type := {
  c_selectedOld : string;
  c_selectedNew : string;
  c_error : string;
  c_shown : option (string * string);
  c_startDisabled : bool
}.

(** [allV1Lights[id]?.name || 'Unknown']. *)
Definition name_or_unknown (lights : list (string * v1light)) (lightId : string)
    : string :=
  match assoc lightId lights with
  | Some l => if truthy_str (Some (name l)) then name l else "Unknown"
  | None => "Unknown"
  end.

Definition updateConfirmation (lights : list (string * v1light))
    (oldValue newValue : string) : confirmation :=
  if truthy_str (Some oldValue) && truthy_str (Some newValue) then
    if String.eqb oldValue newValue then
      {| c_selectedOld := oldValue; c_selectedNew := newValue;
         c_error := "Old and New bulb cannot be the same.";
         c_shown := None; c_startDisabled := true |}
    else
      {| c_selectedOld := oldValue; c_selectedNew := newValue;
         c_error := "";
         c_shown := Some (name_or_unknown lights oldValue,
                          name_or_unknown lights newValue);
         c_startDisabled := false |}
  else
    {| c_selectedOld := oldValue; c_selectedNew := newValue;
       c_error := ""; c_shown := None; c_startDisabled := true |}.

(** Lines 323-327: the number of legacy ids that are not keys of the map. *)
Definition unmappedCount (lights : list (string * v1light)) (m : gmap string string)
    : nat :=
  let v1Ids := map fst lights in
  let mappedV1Ids := map fst (map_to_list m) in
  length (List.filter (fun lightId => negb (list_includes mappedV1Ids lightId)) v1Ids).

(** ** A rule after its update *)

(** The rule the bridge holds once it has stored a payload: a [PUT] replaces
    the arrays it carries and keeps the others. *)
Definition apply_payload (r : rule) (payload : rule_payload) : rule :=
  {| conditions := match p_conditions payload with
                   | Some items => Some items
                   | None => conditions r
                   end;
     actions := match p_actions payload with
                | Some items => Some items
                | None => actions r
                end |}.

(** Some item of the array is to be copied for the new light. *)
Definition needs_items (old new : string) (original : option (list item)) : bool :=
  match original with
  | Some items => existsb (to_add old new original) items
  | None => false
  end.

(** The state copy of the second pass of step 3 for a scene and a state. *)
Definition state_copy (new sceneId : string) (oldLightState : list (string * value))
    : request :=
  PUT V1 ("scenes/" +:+ sceneId +:+ "/lightstates/" +:+ new) (VObj oldLightState).

(** * Proofs *)

(** ** Induction on values *)

Lemma value_ind' (P : value -> Prop) :
  P VUndef -> P VNull -> (forall b, P (VBool b)) -> (forall n, P (VNum n)) ->
  (forall s, P (VStr s)) ->
  (forall items, Forall P items -> P (VArr items)) ->
  (forall props, Forall (fun kv => P (snd kv)) props -> P (VObj props)) ->
  forall v, P v.
Proof.
  intros Hu Hn Hb Hz Hs Ha Ho.
  fix IH 1. intros [| | b | n | s | items | props].
  - exact Hu.
  - exact Hn.
  - apply Hb.
  - apply Hz.
  - apply Hs.
  - apply Ha. induction items as [|x items IHl]; constructor; [apply IH | exact IHl].
  - apply Ho. induction props as [|[k x] props IHl]; constructor; [apply IH | exact IHl].
Qed.

(** ** The scanner computes [scan_tree] *)

Section Scanner.

Variables old new : option string.

Lemma strict_eq_prim r : strict_eq (prim r) r = true.
Proof. destruct r as [s|]; simpl; [apply String.eqb_refl | reflexivity]. Qed.

Lemma is_light_ref_mk_ref r : is_light_ref r (mk_ref r) = true.
Proof. unfold is_light_ref. simpl. rewrite strict_eq_prim. reflexivity. Qed.

Lemma is_light_ref_mk_ref_eq r r' :
  is_light_ref r (mk_ref r') = strict_eq (prim r') r.
Proof. unfold is_light_ref. simpl. rewrite andb_true_r. reflexivity. Qed.

Lemma strict_eq_scan v r : strict_eq (scan_tree old new v) r = strict_eq v r.
Proof. destruct v; reflexivity. Qed.

Lemma assoc_scan k props :
  assoc k (map (fun '(k, x) => (k, scan_tree old new x)) props)
  = scan_tree old new <$> assoc k props.
Proof.
  induction props as [|[k' x] props IH]; simpl; [reflexivity|].
  destruct (String.eqb k k'); [reflexivity | apply IH].
Qed.

Lemma getprop_scan_strict v k r :
  strict_eq (getprop (scan_tree old new v) k) r = strict_eq (getprop v k) r.
Proof.
  destruct v; try reflexivity.
  simpl. rewrite assoc_scan. destruct (assoc k props); simpl;
    [apply strict_eq_scan | reflexivity].
Qed.

Lemma is_light_ref_scan r v :
  is_light_ref r (scan_tree old new v) = is_light_ref r v.
Proof.
  unfold is_light_ref. rewrite !getprop_scan_strict.
  destruct v; reflexivity.
Qed.

Lemma scalar_scan v :
  typeof_object v = false ->
  scan_tree old new v = v /\ scan_mod old new v = false /\ is_light_ref old v = false.
Proof. destruct v; simpl; intros H; try discriminate; auto. Qed.

End Scanner.

Section Loops.

Variables (old new : option string) (rec : value -> option (value * bool)).

Lemma array_loop_eq fuel i obj modified :
  array_loop old new rec fuel i obj modified =
  match obj !! i with
  | None => Some (obj, modified)
  | Some item =>
    match fuel with
    | O => None
    | S fuel' =>
      if is_light_ref old item then
        if negb (existsb (is_light_ref new) obj) then
          array_loop old new rec fuel' (S i) (obj ++ [mk_ref new]) true
        else array_loop old new rec fuel' (S i) obj modified
      else if typeof_object item || isArray item then
        match rec item with
        | None => None
        | Some (item', m) =>
          array_loop old new rec fuel' (S i) (<[i := item']> obj)
            (if m then true else modified)
        end
      else array_loop old new rec fuel' (S i) obj modified
    end
  end.
Proof. destruct fuel; reflexivity. Qed.

Lemma array_loop_end fuel obj modified :
  array_loop old new rec fuel (length obj) obj modified = Some (obj, modified).
Proof.
  rewrite array_loop_eq. rewrite lookup_ge_None_2; [reflexivity | lia].
Qed.

Lemma typeof_object_isArray v : typeof_object v || isArray v = typeof_object v.
Proof. destruct v; reflexivity. Qed.

(** The loop from index [length done] on: [done] holds the elements already
    visited, [rest] those of the original array still to visit, [pushed] the
    reference the loop has appended, if it has. *)
Lemma array_loop_spec :
  rec (mk_ref new) = Some (mk_ref new, false) ->
  forall rest done pushed modified fuel,
    (forall x, In x rest -> typeof_object x = true ->
               rec x = Some (scan_tree old new x, scan_mod old new x)) ->
    (pushed = [] \/ pushed = [mk_ref new]) ->
    length rest < fuel ->
    let push_now :=
      match pushed with [] => true | _ => false end
      && existsb (is_light_ref old) rest
      && negb (existsb (is_light_ref new) (done ++ rest)) in
    array_loop old new rec fuel (length done) (done ++ rest ++ pushed) modified
    = Some (done
            ++ map (fun x => if is_light_ref old x then x else scan_tree old new x) rest
            ++ (if push_now then [mk_ref new] else pushed),
            modified
            || existsb (fun x => negb (is_light_ref old x) && scan_mod old new x) rest
            || push_now).
Proof.
  intros Hr.
  induction rest as [|x rest IH]; intros done pushed modified fuel Hrec Hpush Hfuel.
  - simpl. rewrite andb_false_r, !orb_false_r. simpl.
    destruct Hpush as [-> | ->].
    + rewrite app_nil_r. apply array_loop_end.
    + rewrite array_loop_eq.
      rewrite list_lookup_middle by reflexivity.
      simpl in Hfuel. destruct fuel as [|fuel]; [lia|].
      assert (Hlen : S (length done) = length (done ++ [mk_ref new]))
        by (rewrite length_app; simpl; lia).
      destruct (is_light_ref old (mk_ref new)) eqn:Hold.
      * rewrite existsb_app. simpl. rewrite is_light_ref_mk_ref.
        rewrite orb_true_r. simpl.
        rewrite Hlen. apply array_loop_end.
      * simpl. rewrite Hr.
        rewrite list_insert_id by (apply list_lookup_middle; reflexivity).
        rewrite Hlen. apply array_loop_end.
  - rewrite array_loop_eq.
    change ((x :: rest) ++ pushed) with (x :: rest ++ pushed).
    rewrite list_lookup_middle by reflexivity.
    simpl in Hfuel. destruct fuel as [|fuel]; [lia|].
    assert (Hrec' : forall y, In y rest -> typeof_object y = true ->
                      rec y = Some (scan_tree old new y, scan_mod old new y))
      by (intros y Hy; apply Hrec; right; exact Hy).
    assert (Hlen : forall y, length (done ++ [y]) = S (length done))
      by (intros y; rewrite length_app; simpl; lia).
    assert (Hcons : forall y (l : list value), (done ++ [y]) ++ l = done ++ y :: l)
      by (intros y l; rewrite <- app_assoc; reflexivity).
    destruct (is_light_ref old x) eqn:Hold.
    + (* a reference to the old light *)
      destruct (existsb (is_light_ref new) (done ++ x :: rest ++ pushed)) eqn:Hnew; simpl.
      * specialize (IH (done ++ [x]) pushed modified fuel Hrec' Hpush ltac:(lia)).
        simpl in IH. rewrite Hlen, !Hcons in IH. rewrite IH. clear IH.
        rewrite Hold. simpl.
        assert (Hpn : match pushed with [] => true | _ => false end
                      && negb (existsb (is_light_ref new) (done ++ x :: rest)) = false).
        { destruct Hpush as [-> | ->]; [|reflexivity].
          rewrite app_nil_r in Hnew. rewrite Hnew. reflexivity. }
        destruct (match pushed with [] => true | _ => false end),
          (existsb (is_light_ref new) (done ++ x :: rest)),
          (existsb (is_light_ref old) rest); simpl in *;
          try discriminate; reflexivity.
      * (* no reference to the new light yet: push *)
        assert (pushed = []) as ->.
        { destruct Hpush as [-> | ->]; [reflexivity|].
          rewrite existsb_app in Hnew. simpl in Hnew.
          rewrite existsb_app in Hnew. simpl in Hnew.
          rewrite is_light_ref_mk_ref in Hnew.
          rewrite !orb_true_r in Hnew. discriminate. }
        rewrite app_nil_r in *.
        specialize (IH (done ++ [x]) [mk_ref new] true fuel Hrec' ltac:(auto)
                      ltac:(simpl in *; lia)).
        simpl in IH. rewrite Hlen, !Hcons in IH.
        rewrite <- app_assoc. simpl. rewrite IH. clear IH.
        rewrite Hold, Hnew. simpl. rewrite orb_true_r. reflexivity.
    + (* any other element *)
      rewrite typeof_object_isArray.
      destruct (typeof_object x) eqn:Hobj.
      * rewrite (Hrec x) by (auto; left; reflexivity).
        assert (Hins : <[length done := scan_tree old new x]> (done ++ x :: rest ++ pushed)
                       = done ++ scan_tree old new x :: rest ++ pushed).
        { rewrite insert_app_r_alt by lia. rewrite Nat.sub_diag. reflexivity. }
        rewrite Hins.
        specialize (IH (done ++ [scan_tree old new x]) pushed
                      (if scan_mod old new x then true else modified) fuel
                      Hrec' Hpush ltac:(lia)).
        simpl in IH. rewrite Hlen, !Hcons in IH. rewrite IH. clear IH.
        simpl. rewrite Hold. simpl.
        rewrite !existsb_app. simpl. rewrite is_light_ref_scan.
        f_equal. f_equal.
        destruct (scan_mod old new x), modified; reflexivity.
      * destruct (scalar_scan old new x Hobj) as (Hs & Hm & _).
        specialize (IH (done ++ [x]) pushed modified fuel Hrec' Hpush ltac:(lia)).
        simpl in IH. rewrite Hlen, !Hcons in IH. rewrite IH. clear IH.
        simpl. rewrite Hold, Hs, Hm. simpl. reflexivity.
Qed.

End Loops.

Section ScannerResult.

Variables old new : option string.

Lemma object_loop_spec (rec : value -> option (value * bool)) :
  forall props modified,
    (forall kv, In kv props -> typeof_object (snd kv) = true ->
                rec (snd kv) = Some (scan_tree old new (snd kv), scan_mod old new (snd kv))) ->
    object_loop rec props modified
    = Some (map (fun '(k, x) => (k, scan_tree old new x)) props,
            modified || existsb (fun '(k, x) => scan_mod old new x) props).
Proof.
  induction props as [|[k x] props IH]; intros modified Hrec.
  - simpl. rewrite orb_false_r. reflexivity.
  - simpl. rewrite typeof_object_isArray.
    assert (Hrec' : forall kv, In kv props -> typeof_object (snd kv) = true ->
              rec (snd kv) = Some (scan_tree old new (snd kv), scan_mod old new (snd kv)))
      by (intros kv Hkv; apply Hrec; right; exact Hkv).
    destruct (typeof_object x) eqn:Hobj.
    + pose proof (Hrec (k, x) ltac:(left; reflexivity) Hobj) as Hx.
      simpl in Hx. rewrite Hx.
      rewrite IH by exact Hrec'.
      f_equal. f_equal. destruct (scan_mod old new x), modified; reflexivity.
    + destruct (scalar_scan old new x Hobj) as (Hs & Hm & _).
      rewrite IH by exact Hrec'. rewrite Hs, Hm. reflexivity.
Qed.

Lemma vsize_pos v : 1 <= vsize v.
Proof. destruct v; simpl; lia. Qed.

Lemma vsize_elem x items : In x items -> vsize x <= list_sum (map vsize items).
Proof.
  induction items as [|y items IH]; simpl; [tauto|].
  intros [-> | H]; [lia | specialize (IH H); lia].
Qed.

Lemma vsize_prop kv (props : list (string * value)) :
  In kv props -> vsize (snd kv) <= list_sum (map (fun kv => vsize (snd kv)) props).
Proof.
  induction props as [|y props IH]; simpl; [tauto|].
  intros [-> | H]; [lia | specialize (IH H); lia].
Qed.

Lemma vsize_length items : length items <= list_sum (map vsize items).
Proof.
  induction items as [|y items IH]; simpl; [lia|].
  pose proof (vsize_pos y). lia.
Qed.

Lemma scan_mk_ref fuel :
  0 < fuel -> addLightReference fuel (mk_ref new) old new = Some (mk_ref new, false).
Proof. destruct fuel; [lia|]. intros _. destruct new; reflexivity. Qed.

(** With enough fuel the scanner returns, and its result is the structural
    one. *)
Lemma scanner_result :
  forall fuel v,
    S (vsize v) < fuel ->
    addLightReference fuel v old new = Some (scan_tree old new v, scan_mod old new v).
Proof.
  induction fuel as [|fuel IH]; intros v Hfuel; [lia|].
  destruct v as [| | b | n | s | items | props]; try reflexivity.
  - simpl in Hfuel.
    pose proof (vsize_length items) as Hlen.
    cbn [addLightReference].
    pose proof (array_loop_spec old new
                  (fun v => addLightReference fuel v old new)
                  (scan_mk_ref fuel ltac:(lia)) items [] [] false fuel) as H.
    simpl in H. rewrite app_nil_r in H. rewrite H; [|
      intros x Hx _; apply IH; pose proof (vsize_elem x items Hx); lia
      | left; reflexivity | lia ].
    simpl. rewrite orb_comm.
    destruct (existsb (is_light_ref old) items && negb (existsb (is_light_ref new) items));
      [reflexivity | rewrite app_nil_r; reflexivity].
  - simpl in Hfuel.
    cbn [addLightReference].
    rewrite (object_loop_spec _ props false);
      [reflexivity |
       intros kv Hkv _; apply IH; pose proof (vsize_prop kv props Hkv); lia].
Qed.

End ScannerResult.

(** ** The scanner along paths *)

Section ScannerPaths.

Variables old new : option string.

Local Abbreviation selem :=
  (fun x => if is_light_ref old x then x else scan_tree old new x).
Local Abbreviation should_push items :=
  (existsb (is_light_ref old) items && negb (existsb (is_light_ref new) items)).

Lemma is_light_ref_selem r x : is_light_ref r (selem x) = is_light_ref r x.
Proof. simpl. destruct (is_light_ref old x); [reflexivity | apply is_light_ref_scan]. Qed.

Lemma existsb_selem r items :
  existsb (is_light_ref r) (map selem items) = existsb (is_light_ref r) items.
Proof.
  induction items as [|x items IH]; [reflexivity|].
  cbn [map existsb]. rewrite IH. f_equal. apply is_light_ref_selem.
Qed.

Lemma count_refs_none r items :
  existsb (is_light_ref r) items = false -> count_refs r items = 0.
Proof.
  induction items as [|x items IH]; [reflexivity|].
  simpl. destruct (is_light_ref r x); simpl; [discriminate | exact IH].
Qed.

Lemma count_refs_app r l1 l2 :
  count_refs r (l1 ++ l2) = count_refs r l1 + count_refs r l2.
Proof. induction l1 as [|x l1 IH]; simpl; [reflexivity | rewrite IH; lia]. Qed.

Lemma children_scan_array items i c :
  items !! i = Some c ->
  children (scan_tree old new (VArr items)) !! i = Some (selem c).
Proof.
  intros H. simpl.
  assert (Hm : map selem items !! i = Some (selem c))
    by (rewrite list_lookup_fmap_Some; eauto using list_lookup_fmap).
  destruct (should_push items); [|exact Hm].
  rewrite lookup_app_l; [exact Hm|].
  apply lookup_lt_Some in Hm. exact Hm.
Qed.

Lemma children_scan_object (props : list (string * value)) i c :
  map snd props !! i = Some c ->
  children (scan_tree old new (VObj props)) !! i = Some (scan_tree old new c).
Proof.
  simpl. revert i. induction props as [|[k x] props IH]; intros [|i]; simpl;
    try discriminate.
  - intros [= ->]. reflexivity.
  - apply IH.
Qed.

(** A node the scanner reaches holds its scanned image afterwards. *)
Lemma subval_scan_reached :
  forall p v w,
    subval v p = Some w -> reached old v p = true ->
    subval (scan_tree old new v) p = Some (scan_tree old new w).
Proof.
  induction p as [|i p IH]; intros v w Hsub Hreach.
  - simpl in *. congruence.
  - simpl in Hsub, Hreach. cbn [subval].
    destruct (children v !! i) as [c|] eqn:Hc; [|discriminate].
    apply andb_true_iff in Hreach as [Hnot Hreach].
    destruct v as [| | b | n | s | items | props]; simpl in Hc; try discriminate.
    + simpl in Hnot. apply negb_true_iff in Hnot.
      rewrite (children_scan_array items i c Hc). simpl. rewrite Hnot.
      apply IH; assumption.
    + rewrite (children_scan_object props i c Hc). apply IH; assumption.
Qed.

(** A node below a reference to the old light is left as it was. *)
Lemma subval_scan_unreached :
  forall p v w,
    subval v p = Some w -> reached old v p = false ->
    subval (scan_tree old new v) p = Some w.
Proof.
  induction p as [|i p IH]; intros v w Hsub Hreach.
  - simpl in Hreach. discriminate.
  - simpl in Hsub, Hreach. cbn [subval].
    destruct (children v !! i) as [c|] eqn:Hc; [|discriminate].
    destruct v as [| | b | n | s | items | props]; simpl in Hc; try discriminate.
    + rewrite (children_scan_array items i c Hc). simpl in Hreach |- *.
      destruct (is_light_ref old c); simpl in Hreach; [exact Hsub|].
      apply IH; assumption.
    + rewrite (children_scan_object props i c Hc). simpl in Hreach.
      apply IH; assumption.
Qed.

Lemma existsb_lookup {A} (f : A -> bool) (l : list A) :
  existsb f l = true <-> exists i x, l !! i = Some x /\ f x = true.
Proof.
  rewrite existsb_exists. split.
  - intros (x & Hin & Hf). apply list_elem_of_In, list_elem_of_lookup in Hin as [i Hi].
    eauto.
  - intros (i & x & Hi & Hf). exists x. split; [|exact Hf].
    apply list_elem_of_In, list_elem_of_lookup. eauto.
Qed.

(** The flag is raised exactly when some array the scanner reaches has a
    reference to the old light and none to the new one. *)
Lemma scan_mod_iff v :
  scan_mod old new v = true <->
  exists p items,
    subval v p = Some (VArr items) /\ reached old v p = true
    /\ should_push items = true.
Proof.
  split.
  - induction v as [| | b | n | s | items IH | props IH] using value_ind';
      simpl; try discriminate.
    + intros H. apply orb_true_iff in H as [H | H].
      * apply existsb_lookup in H as (i & x & Hi & Hx).
        apply andb_true_iff in Hx as [Hnot Hmod].
        rewrite Forall_forall in IH.
        destruct (IH x) as (p & l & Hsub & Hreach & Hpush);
          [apply list_elem_of_lookup; eauto | exact Hmod |].
        exists (i :: p), l. simpl. rewrite Hi, Hnot. simpl. auto.
      * exists [], items. auto.
    + intros H. apply existsb_lookup in H as (i & [k x] & Hi & Hx).
      rewrite Forall_forall in IH.
      destruct (IH (k, x)) as (p & l & Hsub & Hreach & Hpush);
        [apply list_elem_of_lookup; eauto | exact Hx |].
      exists (i :: p), l. simpl. rewrite list_lookup_fmap, Hi. simpl. auto.
  - intros (p & l & Hsub & Hreach & Hpush). revert v Hsub Hreach.
    induction p as [|i p IH]; intros v Hsub Hreach.
    + simpl in Hsub. injection Hsub as ->. simpl. rewrite Hpush. apply orb_true_r.
    + simpl in Hsub, Hreach.
      destruct (children v !! i) as [c|] eqn:Hc; [|discriminate].
      apply andb_true_iff in Hreach as [Hnot Hreach].
      specialize (IH c Hsub Hreach).
      destruct v as [| | b | n | s | items | props]; simpl in Hc; try discriminate.
      * simpl in Hnot. simpl. apply orb_true_iff. left.
        apply existsb_lookup. exists i, c. rewrite Hnot, IH. auto.
      * simpl. apply existsb_lookup.
        rewrite list_lookup_fmap in Hc.
        destruct (props !! i) as [[k x]|] eqn:Hp; [|discriminate].
        simpl in Hc. injection Hc as ->. exists i, (k, c). auto.
Qed.

End ScannerPaths.

Section ScannerTwice.

Variables old new : option string.
Hypothesis distinct : is_light_ref old (mk_ref new) = false.

Local Abbreviation selem :=
  (fun x => if is_light_ref old x then x else scan_tree old new x).

Lemma scan_tree_mk_ref r : scan_tree old new (mk_ref r) = mk_ref r.
Proof. destruct r; reflexivity. Qed.

Lemma scan_mod_mk_ref r : scan_mod old new (mk_ref r) = false.
Proof. destruct r; reflexivity. Qed.

Lemma selem_twice items :
  Forall (fun v => scan_tree old new (scan_tree old new v) = scan_tree old new v
                   /\ scan_mod old new (scan_tree old new v) = false) items ->
  map selem (map selem items) = map selem items
  /\ existsb (fun x => negb (is_light_ref old x) && scan_mod old new x)
       (map selem items) = false.
Proof.
  induction 1 as [|x l [Hx Hm] _ [IHmap IHmod]]; [split; reflexivity|].
  cbn [map existsb]. rewrite IHmap, IHmod, orb_false_r.
  destruct (is_light_ref old x) eqn:Hold.
  - rewrite Hold. auto.
  - rewrite is_light_ref_scan, Hold, Hx, Hm. auto.
Qed.

(** A second scan finds nothing to do. *)
Lemma scan_twice v :
  scan_tree old new (scan_tree old new v) = scan_tree old new v
  /\ scan_mod old new (scan_tree old new v) = false.
Proof.
  induction v as [| | b | n | s | items IH | props IH] using value_ind';
    try (split; reflexivity).
  - destruct (selem_twice items IH) as [Hmap Hmod].
    cbn [scan_tree scan_mod].
    destruct (existsb (is_light_ref old) items
              && negb (existsb (is_light_ref new) items)) eqn:Hpush.
    + cbn [scan_tree scan_mod].
      rewrite !existsb_app, !existsb_selem. simpl.
      rewrite is_light_ref_mk_ref, distinct, !orb_true_r, !andb_false_r. simpl.
      rewrite map_app, Hmap, Hmod. cbn [map orb andb].
      rewrite distinct, scan_tree_mk_ref.
      split; [reflexivity | destruct new; reflexivity].
    + cbn [scan_tree scan_mod].
      rewrite !existsb_selem, Hpush, Hmap, Hmod. auto.
  - cbn [scan_tree scan_mod]. split.
    + f_equal. induction IH as [|[k x] props [Hx _] _ IHl]; [reflexivity|].
      cbn [map]. simpl in Hx. rewrite Hx, IHl. reflexivity.
    + induction IH as [|[k x] props [_ Hx] _ IHl]; [reflexivity|].
      cbn [map existsb]. simpl in Hx. rewrite Hx, IHl. reflexivity.
Qed.

End ScannerTwice.

Lemma same_node_scan old new w : same_node w (scan_tree old new w).
Proof.
  destruct w as [| | b | n | s | items | props]; simpl; auto.
  induction props as [|[k x] props IH]; simpl; [reflexivity | rewrite IH; reflexivity].
Qed.

Lemma same_node_refl w : same_node w w.
Proof. destruct w; simpl; auto. Qed.

Lemma distinct_refs (oldGuid newGuid : string) :
  oldGuid <> newGuid ->
  is_light_ref (Some oldGuid) (mk_ref (Some newGuid)) = false.
Proof.
  intros H. rewrite is_light_ref_mk_ref_eq. simpl.
  apply String.eqb_neq. congruence.
Qed.

(** ** Reference scanner: the claims *)

(** C1, as the spec states it, fails: an array below an element that is
    itself a reference to the old light holds such a reference, has none to
    the new light, and yet is left as it was, because the scanner does not
    descend into an element it has matched (line 416 is an [else if]).  Here
    the outer array receives the new reference and the array at path
    [0; 2] does not. *)
Lemma scanner_contract_counterexample :
  let oldRef := mk_ref (Some "guidA") in
  let inner := VArr [oldRef] in
  let t :=
    VArr [VObj [("rid", VStr "guidA"); ("rtype", VStr "light"); ("members", inner)]] in
  subval t [0; 2] = Some inner
  /\ existsb (is_light_ref (Some "guidA")) [oldRef] = true
  /\ existsb (is_light_ref (Some "guidB")) [oldRef] = false
  /\ exists t',
       addLightReference (scan_fuel t) t (Some "guidA") (Some "guidB") = Some (t', true)
       /\ subval t' [0; 2] = Some inner.
Proof.
  cbv zeta. repeat split; try reflexivity.
  eexists. split; [vm_compute; reflexivity | reflexivity].
Qed.

(** C1 (amended): with enough fuel the scanner returns a tree [t'] and a
    flag such that (1) every node of the tree keeps its place and its frame;
    (2) an array the scanner reaches that holds a reference to the old light
    and none to the new one (both matched on [rid] and [rtype]) grows by
    exactly one element, the new reference, which is then its only reference
    to the new light, and every other array keeps its length; (3) a node
    below an element that is itself a reference to the old light is left
    exactly as it was; (4) the flag is [true] exactly when some array has
    changed its length. *)
Theorem scanner_contract (oldGuid newGuid : string) (t : value) :
  exists t' modified,
    (forall fuel, scan_fuel t <= fuel ->
       addLightReference fuel t (Some oldGuid) (Some newGuid) = Some (t', modified))
    /\ (forall p w, subval t p = Some w ->
          exists w', subval t' p = Some w' /\ same_node w w')
    /\ (forall p items items',
          subval t p = Some (VArr items) -> subval t' p = Some (VArr items') ->
          if reached (Some oldGuid) t p
             && existsb (is_light_ref (Some oldGuid)) items
             && negb (existsb (is_light_ref (Some newGuid)) items)
          then length items' = S (length items)
               /\ items' !! length items = Some (mk_ref (Some newGuid))
               /\ count_refs (Some newGuid) items' = 1
          else length items' = length items)
    /\ (forall p w, subval t p = Some w -> reached (Some oldGuid) t p = false ->
          subval t' p = Some w)
    /\ (modified = true <->
        exists p items items',
          subval t p = Some (VArr items) /\ subval t' p = Some (VArr items')
          /\ length items' <> length items).
Proof.
  set (old := Some oldGuid). set (new := Some newGuid).
  exists (scan_tree old new t), (scan_mod old new t).
  assert (Hat : forall p items, subval t p = Some (VArr items) ->
            subval (scan_tree old new t) p =
            Some (if reached old t p then scan_tree old new (VArr items) else VArr items)).
  { intros p items Hsub. destruct (reached old t p) eqn:Hr.
    - apply subval_scan_reached; assumption.
    - apply subval_scan_unreached; assumption. }
  repeat split.
  - intros fuel Hfuel. apply scanner_result. unfold scan_fuel in Hfuel. lia.
  - intros p w Hsub. destruct (reached old t p) eqn:Hr.
    + exists (scan_tree old new w). split;
        [apply subval_scan_reached; assumption | apply same_node_scan].
    + exists w. split;
        [apply subval_scan_unreached; assumption | apply same_node_refl].
  - intros p items items' Hsub Hsub'.
    rewrite (Hat p items Hsub) in Hsub'.
    destruct (reached old t p); simpl.
    + cbn [scan_tree] in Hsub'.
      destruct (existsb (is_light_ref old) items); simpl.
      * destruct (existsb (is_light_ref new) items) eqn:Hnew; simpl in *.
        -- injection Hsub' as <-. apply length_map.
        -- injection Hsub' as <-. rewrite length_app, length_map. simpl.
           split; [lia|]. split.
           ++ rewrite lookup_app_r by (rewrite length_map; lia).
              rewrite length_map, Nat.sub_diag. reflexivity.
           ++ rewrite count_refs_app, count_refs_none
                by (rewrite existsb_selem; exact Hnew).
              simpl. rewrite is_light_ref_mk_ref. reflexivity.
      * simpl in Hsub'. injection Hsub' as <-. apply length_map.
    + injection Hsub' as <-. reflexivity.
  - intros p w Hsub Hr. apply subval_scan_unreached; assumption.
  - intros Hmod. apply scan_mod_iff in Hmod as (p & items & Hsub & Hr & Hpush).
    exists p, items. eexists. split; [exact Hsub|].
    split.
    + rewrite (Hat p items Hsub), Hr. cbn [scan_tree]. rewrite Hpush. reflexivity.
    + rewrite length_app, length_map. simpl. lia.
  - intros (p & items & items' & Hsub & Hsub' & Hlen).
    apply scan_mod_iff. exists p, items.
    rewrite (Hat p items Hsub) in Hsub'.
    destruct (reached old t p).
    + cbn [scan_tree] in Hsub'.
      destruct (existsb (is_light_ref old) items
                && negb (existsb (is_light_ref new) items)); [auto|].
      injection Hsub' as <-. rewrite length_map in Hlen. congruence.
    + injection Hsub' as <-. congruence.
Qed.

(** C3: with distinct GUIDs, a second run of the scanner on the tree the
    first run left returns [false] and leaves that tree as it is. *)
Theorem scanner_idempotent (oldGuid newGuid : string) (t : value) :
  oldGuid <> newGuid ->
  exists t1 modified1,
    (forall fuel, scan_fuel t <= fuel ->
       addLightReference fuel t (Some oldGuid) (Some newGuid) = Some (t1, modified1))
    /\ (forall fuel, scan_fuel t1 <= fuel ->
          addLightReference fuel t1 (Some oldGuid) (Some newGuid) = Some (t1, false)).
Proof.
  intros Hne.
  exists (scan_tree (Some oldGuid) (Some newGuid) t),
         (scan_mod (Some oldGuid) (Some newGuid) t).
  split; intros fuel Hfuel; unfold scan_fuel in Hfuel.
  - apply scanner_result. lia.
  - rewrite scanner_result by lia.
    destruct (scan_twice _ _ (distinct_refs oldGuid newGuid Hne) t) as [-> ->].
    reflexivity.
Qed.

(** C3 at the scenario of the spec: the targets of an automation. *)
Lemma scanner_idempotent_witness :
  exists t1 modified1,
    (forall fuel,
       scan_fuel (VObj [("targets", VArr [mk_ref (Some "guidA"); mk_ref (Some "guidB")])])
       <= fuel ->
       addLightReference fuel
         (VObj [("targets", VArr [mk_ref (Some "guidA"); mk_ref (Some "guidB")])])
         (Some "guidA") (Some "guidC") = Some (t1, modified1))
    /\ (forall fuel, scan_fuel t1 <= fuel ->
          addLightReference fuel t1 (Some "guidA") (Some "guidC") = Some (t1, false)).
Proof.
  apply (scanner_idempotent "guidA" "guidC"). discriminate.
Defined.

(** ** Strings *)

Lemma append_cons c (a b : string) : String c a +:+ b = String c (a +:+ b).
Proof. reflexivity. Qed.

Lemma append_nil_l (a : string) : "" +:+ a = a.
Proof. reflexivity. Qed.

Lemma startsWith_split s p :
  startsWith s p = true -> s = p +:+ substring_from (String.length p) s.
Proof.
  revert s. induction p as [|c p IH]; intros s H; [reflexivity|].
  destruct s as [|d s]; [discriminate|].
  simpl in H. destruct (Ascii.eqb c d) eqn:Hc; [|discriminate].
  apply Ascii.eqb_eq in Hc as ->. rewrite append_cons. simpl. f_equal. apply IH, H.
Qed.

Lemma startsWith_app p s : startsWith (p +:+ s) p = true.
Proof.
  induction p as [|c p IH]; [reflexivity|].
  rewrite append_cons. simpl. rewrite Ascii.eqb_refl. exact IH.
Qed.

Lemma substring_from_app p s : substring_from (String.length p) (p +:+ s) = s.
Proof. induction p as [|c p IH]; [reflexivity | rewrite append_cons; exact IH]. Qed.

Lemma append_inj_l p s1 s2 : p +:+ s1 = p +:+ s2 -> s1 = s2.
Proof.
  induction p as [|c p IH]; [auto|]. rewrite !append_cons. intros [= H]. auto.
Qed.

Lemma append_assoc (a b c : string) : (a +:+ b) +:+ c = a +:+ (b +:+ c).
Proof.
  induction a as [|x a IH]; [reflexivity|]. rewrite !append_cons, IH. reflexivity.
Qed.

Lemma append_length (a b : string) :
  String.length (a +:+ b) = String.length a + String.length b.
Proof.
  induction a as [|x a IH]; [reflexivity|]. rewrite append_cons. simpl.
  rewrite IH. reflexivity.
Qed.

Lemma append_nil_r (a : string) : a +:+ "" = a.
Proof.
  induction a as [|x a IH]; [reflexivity|]. rewrite append_cons, IH. reflexivity.
Qed.

(** ** Rule migrator *)

Section Rules.

Variables old new : string.

Lemma migrate_item_eq original acc it :
  migrate_item old new original acc it
  = if to_add old new original it
    then (fst acc ++ [readdress old new it], true) else acc.
Proof.
  unfold migrate_item, to_add.
  destruct (has_old_prefix old it), (itemAddressExists original _); reflexivity.
Qed.

Lemma migrate_fold original items acc needs :
  fold_left (migrate_item old new original) items (acc, needs)
  = (acc ++ map (readdress old new) (List.filter (to_add old new original) items),
     needs || existsb (to_add old new original) items).
Proof.
  revert acc needs. induction items as [|it items IH]; intros acc needs.
  - simpl. rewrite app_nil_r, orb_false_r. reflexivity.
  - cbn [fold_left List.filter existsb]. rewrite migrate_item_eq.
    destruct (to_add old new original it); cbn [fst map orb].
    + rewrite IH, <- app_assoc, orb_true_r. reflexivity.
    + apply IH.
Qed.

Lemma migrate_items_eq original needs :
  migrate_items old new (Some original) needs
  = (map copy_item original
     ++ map (readdress old new) (List.filter (to_add old new (Some original)) original),
     needs || existsb (to_add old new (Some original)) original).
Proof. unfold migrate_items. apply migrate_fold. Qed.

Lemma readdress_suffix it :
  has_old_prefix old it = true ->
  exists suffix,
    address it = Some (lightAddressPrefix old +:+ suffix)
    /\ readdress old new it
       = {| address := Some (lightAddressPrefix new +:+ suffix); fields := fields it |}.
Proof.
  unfold has_old_prefix, readdress, new_address.
  destruct (address it) as [a|]; [|discriminate].
  intros H. exists (substring_from (String.length (lightAddressPrefix old)) a).
  split; [f_equal; apply startsWith_split, H | reflexivity].
Qed.

Lemma no_prefix_no_update original needs :
  (forall it, In it original -> has_old_prefix old it = false) ->
  migrate_items old new (Some original) needs = (map copy_item original, needs).
Proof.
  intros H. rewrite migrate_items_eq.
  assert (Hf : forall l, (forall it, In it l -> has_old_prefix old it = false) ->
             List.filter (to_add old new (Some original)) l = []
             /\ existsb (to_add old new (Some original)) l = false).
  { induction l as [|it l IH]; intros Hl; [split; reflexivity|].
    assert (Hit : to_add old new (Some original) it = false)
      by (unfold to_add; rewrite (Hl it) by (left; reflexivity); reflexivity).
    cbn [List.filter existsb]. rewrite Hit. simpl.
    apply IH. intros it' Hit'. apply Hl. right. exact Hit'. }
  destruct (Hf original H) as [-> ->].
  simpl. rewrite app_nil_r, orb_false_r. reflexivity.
Qed.

End Rules.

(** ** Deep copies of parsed JSON *)

Lemma json_copy_id v : is_json v = true -> json_copy v = v.
Proof.
  induction v as [| | b | n | s | items IH | props IH] using value_ind';
    try reflexivity.
  - cbn [is_json json_copy]. intros H. f_equal.
    induction IH as [|x items Hx _ IHl]; [reflexivity|].
    cbn [forallb] in H. apply andb_true_iff in H as [H1 H2].
    cbn [map]. rewrite IHl by exact H2. f_equal.
    destruct x; try reflexivity; try discriminate; apply Hx, H1.
  - cbn [is_json json_copy]. intros H. f_equal.
    induction IH as [|[k x] props Hx _ IHl]; [reflexivity|].
    cbn [forallb] in H. apply andb_true_iff in H as [H1 H2].
    cbn [flat_map]. rewrite IHl by exact H2.
    simpl in H1, Hx. pose proof (Hx H1) as Hx'.
    destruct x; try discriminate; simpl in Hx' |- *; rewrite ?Hx'; reflexivity.
Qed.

Lemma copy_item_id it : json_item it = true -> copy_item it = it.
Proof.
  destruct it as [a fs]. unfold json_item, copy_item. simpl. intros H. f_equal.
  induction fs as [|[k x] fs IH]; [reflexivity|].
  cbn [forallb] in H. apply andb_true_iff in H as [H1 H2].
  cbn [flat_map]. rewrite IH by exact H2. simpl in H1.
  pose proof (json_copy_id x H1) as Hx.
  destruct x; try discriminate; simpl in Hx |- *; rewrite ?Hx; reflexivity.
Qed.

Lemma map_copy_item_id items :
  forallb json_item items = true -> map copy_item items = items.
Proof.
  induction items as [|it items IH]; [reflexivity|].
  cbn [forallb]. intros H. apply andb_true_iff in H as [H1 H2].
  cbn [map]. rewrite copy_item_id, IH by assumption. reflexivity.
Qed.

Section RuleClaims.

Variables old new : string.

Lemma rule_update_none r :
  snd (migrate_items old new (actions r)
         (snd (migrate_items old new (conditions r) false))) = false ->
  rule_update old new r = None.
Proof.
  unfold rule_update.
  destruct (migrate_items old new (conditions r) false) as [mc n1]. cbn [snd].
  destruct (migrate_items old new (actions r) n1) as [ma n2].
  cbn [snd]. intros ->. reflexivity.
Qed.

Lemma migrate_items_no_prefix original needs :
  (forall items, original = Some items ->
                 forall it, In it items -> has_old_prefix old it = false) ->
  snd (migrate_items old new original needs) = needs.
Proof.
  destruct original as [items|]; [|reflexivity].
  intros H. rewrite no_prefix_no_update by (apply H; reflexivity). reflexivity.
Qed.

End RuleClaims.

Lemma prefix_suffix (lightId suffix : string) :
  lightAddressPrefix lightId +:+ suffix = "/lights/" +:+ lightId +:+ "/" +:+ suffix.
Proof. unfold lightAddressPrefix. rewrite !append_assoc. reflexivity. Qed.

Lemma itemAddressExists_address items a :
  itemAddressExists (Some items) a = true <-> In (Some a) (map address items).
Proof.
  unfold itemAddressExists. rewrite existsb_exists, in_map_iff. split.
  - intros (it & Hin & Ha). exists it. split; [|exact Hin].
    destruct (address it) as [a'|]; [|discriminate].
    apply String.eqb_eq in Ha as ->. reflexivity.
  - intros (it & Ha & Hin). exists it. split; [exact Hin|].
    rewrite Ha. apply String.eqb_refl.
Qed.

(** The test of one turn of the [forEach], in terms of the addresses. *)
Lemma to_add_spec old new items it :
  to_add old new (Some items) it = true
  <-> exists suffix,
        address it = Some ("/lights/" +:+ old +:+ "/" +:+ suffix)
        /\ new_address old new it = "/lights/" +:+ new +:+ "/" +:+ suffix
        /\ ~ In (Some ("/lights/" +:+ new +:+ "/" +:+ suffix)) (map address items).
Proof.
  unfold to_add. rewrite andb_true_iff, negb_true_iff. split.
  - intros [Hpre Hno].
    destruct (readdress_suffix old new it Hpre) as (suffix & Ha & Hre).
    exists suffix.
    assert (Hnew : new_address old new it = "/lights/" +:+ new +:+ "/" +:+ suffix).
    { unfold new_address. rewrite Ha. change (default "" (Some ?a)) with a.
      rewrite substring_from_app. apply prefix_suffix. }
    rewrite prefix_suffix in Ha.
    split; [exact Ha|]. split; [exact Hnew|].
    rewrite <- Hnew, <- itemAddressExists_address, Hno. discriminate.
  - intros (suffix & Ha & Hnew & Hno). split.
    + unfold has_old_prefix. rewrite Ha, <- prefix_suffix. apply startsWith_app.
    + rewrite Hnew. apply not_true_iff_false.
      rewrite itemAddressExists_address. exact Hno.
Qed.

Lemma existsb_filter {A} (f : A -> bool) l :
  existsb f l = negb (Nat.eqb (length (List.filter f l)) 0).
Proof.
  induction l as [|x l IH]; [reflexivity|].
  simpl. destruct (f x); simpl; [reflexivity | exact IH].
Qed.

(** C2: in one pass over [original], the conditions (or actions) of a rule,
    the modified array is the copy of [original] followed by the added
    items.  For an item of [original] at [/lights/{old}/suffix], the item
    with the same fields at [/lights/{new}/suffix] is among the added items
    exactly when no item of [original] has that new address, whatever was
    added before it in the pass; nothing else is added; the flag is raised
    exactly when an item is added; and a rule none of whose addresses has
    the old prefix is not written. *)
Theorem rule_dedup_against_original (old new : string) :
  (forall original needsUpdate,
     exists added,
       migrate_items old new (Some original) needsUpdate
       = (map copy_item original ++ added,
          needsUpdate || negb (Nat.eqb (length added) 0))
       /\ (forall suffix fs,
             In {| address := Some ("/lights/" +:+ old +:+ "/" +:+ suffix); fields := fs |}
                original ->
             (In {| address := Some ("/lights/" +:+ new +:+ "/" +:+ suffix); fields := fs |}
                 added
              <-> ~ In (Some ("/lights/" +:+ new +:+ "/" +:+ suffix))
                       (map address original)))
       /\ (forall it', In it' added ->
             exists suffix fs,
               In {| address := Some ("/lights/" +:+ old +:+ "/" +:+ suffix); fields := fs |}
                  original
               /\ it' = {| address := Some ("/lights/" +:+ new +:+ "/" +:+ suffix);
                           fields := fs |}))
  /\ (forall r,
        (forall items it suffix, conditions r = Some items -> In it items ->
           address it <> Some ("/lights/" +:+ old +:+ "/" +:+ suffix)) ->
        (forall items it suffix, actions r = Some items -> In it items ->
           address it <> Some ("/lights/" +:+ old +:+ "/" +:+ suffix)) ->
        rule_update old new r = None).
Proof.
  split.
  - intros original needsUpdate.
    exists (map (readdress old new)
              (List.filter (to_add old new (Some original)) original)).
    split; [|split].
    + rewrite migrate_items_eq, length_map, existsb_filter. reflexivity.
    + intros suffix fs Hin. rewrite in_map_iff. split.
      * intros (it & Heq & Hit). apply filter_In in Hit as [_ Hadd].
        apply to_add_spec in Hadd as (suffix' & _ & Hnew & Hno).
        apply (f_equal address) in Heq. unfold readdress in Heq. cbn [address] in Heq.
        rewrite Hnew in Heq. rewrite <- Heq. exact Hno.
      * intros Hno.
        exists {| address := Some ("/lights/" +:+ old +:+ "/" +:+ suffix); fields := fs |}.
        assert (Hnew : new_address old new
                         {| address := Some ("/lights/" +:+ old +:+ "/" +:+ suffix);
                            fields := fs |}
                       = "/lights/" +:+ new +:+ "/" +:+ suffix).
        { unfold new_address. cbn [address].
          change (default "" (Some ?a)) with a.
          rewrite <- !prefix_suffix, substring_from_app. reflexivity. }
        split; [unfold readdress; rewrite Hnew; reflexivity|].
        apply filter_In. split; [exact Hin|].
        apply to_add_spec. exists suffix. auto.
    + intros it' Hit'. apply in_map_iff in Hit' as (it & <- & Hit).
      apply filter_In in Hit as [Hin Hadd].
      apply to_add_spec in Hadd as (suffix & Ha & Hnew & _).
      exists suffix, (fields it). split.
      * destruct it as [a fs]. cbn [address fields] in *. rewrite <- Ha. exact Hin.
      * unfold readdress. rewrite Hnew. reflexivity.
  - intros r Hc Ha.
    assert (Hno : forall original,
              (forall items it suffix, original = Some items -> In it items ->
                 address it <> Some ("/lights/" +:+ old +:+ "/" +:+ suffix)) ->
              forall items, original = Some items ->
                forall it, In it items -> has_old_prefix old it = false).
    { intros original H items Heq it Hit. apply not_true_iff_false. intros Hpre.
      destruct (readdress_suffix old new it Hpre) as (suffix & Haddr & _).
      rewrite prefix_suffix in Haddr. exact (H items it suffix Heq Hit Haddr). }
    apply rule_update_none.
    rewrite !migrate_items_no_prefix; [reflexivity | |].
    + apply Hno. intros items it suffix. apply Hc.
    + apply Hno. intros items it suffix. apply Ha.
Qed.

(** C2 on three conditions: two on light 5, and one on light 7 at the address
    the first would be copied to.  The second is copied, the first is not. *)
Lemma rule_dedup_against_original_witness :
  let c1 := {| address := Some "/lights/5/state/on"; fields := [("operator", VStr "dx")] |} in
  let c2 := {| address := Some "/lights/5/state/bri"; fields := [("operator", VStr "gt")] |} in
  let c3 := {| address := Some "/lights/7/state/on"; fields := [("operator", VStr "eq")] |} in
  exists added,
    migrate_items "5" "7" (Some [c1; c2; c3]) false
    = (map copy_item [c1; c2; c3] ++ added, negb (Nat.eqb (length added) 0))
    /\ In {| address := Some "/lights/7/state/bri"; fields := [("operator", VStr "gt")] |}
          added
    /\ ~ In {| address := Some "/lights/7/state/on"; fields := [("operator", VStr "dx")] |}
            added.
Proof.
  cbv zeta.
  destruct (proj1 (rule_dedup_against_original "5" "7")
              [ {| address := Some "/lights/5/state/on";
                   fields := [("operator", VStr "dx")] |};
                {| address := Some "/lights/5/state/bri";
                   fields := [("operator", VStr "gt")] |};
                {| address := Some "/lights/7/state/on";
                   fields := [("operator", VStr "eq")] |} ] false)
    as (added & Heq & Hiff & _).
  exists added. split; [exact Heq|]. split.
  - apply (Hiff "state/bri" [("operator", VStr "gt")]).
    + right. left. reflexivity.
    + intros [H | [H | [H | []]]]; discriminate H.
  - intros Hin.
    apply (Hiff "state/on" [("operator", VStr "dx")]) in Hin.
    + apply Hin. right. right. left. reflexivity.
    + left. reflexivity.
Defined.

Lemma submitted_shape old new original needs submitted :
  (forall items, original = Some items -> forallb json_item items = true) ->
  (if Nat.ltb 0 (length (fst (migrate_items old new original needs)))
   then Some (fst (migrate_items old new original needs)) else None) = Some submitted ->
  exists items added,
    original = Some items /\ submitted = items ++ added
    /\ added_from old new items added.
Proof.
  intros Hjson. destruct original as [items|]; [|discriminate].
  rewrite migrate_items_eq. cbn [fst].
  rewrite map_copy_item_id by (apply Hjson; reflexivity).
  destruct (Nat.ltb 0 _); [|discriminate]. intros [= <-].
  exists items, (map (readdress old new)
                   (List.filter (to_add old new (Some items)) items)).
  split; [reflexivity|]. split; [reflexivity|].
  unfold added_from. rewrite Forall_forall. intros it' Hit'.
  apply list_elem_of_In, in_map_iff in Hit' as (it & <- & Hit).
  apply filter_In in Hit as [Hin Hadd].
  unfold to_add in Hadd. apply andb_true_iff in Hadd as [Hpre _].
  exists it. auto.
Qed.

(** C10: when a rule is written, each array of the payload is the original
    array of the rule, every item as it was and in its order, followed by
    the items the pass has created.  The rule's items are parsed JSON, as a
    response of the bridge is. *)
Theorem rule_frame (old new : string) (r : rule) (payload : rule_payload) :
  (forall items, conditions r = Some items -> forallb json_item items = true) ->
  (forall items, actions r = Some items -> forallb json_item items = true) ->
  rule_update old new r = Some payload ->
  (forall submitted, p_conditions payload = Some submitted ->
     exists original added,
       conditions r = Some original /\ submitted = original ++ added
       /\ added_from old new original added)
  /\ (forall submitted, p_actions payload = Some submitted ->
        exists original added,
          actions r = Some original /\ submitted = original ++ added
          /\ added_from old new original added).
Proof.
  intros Hc Ha. unfold rule_update.
  pose proof (submitted_shape old new (conditions r) false) as Sc.
  destruct (migrate_items old new (conditions r) false) as [mc n1]. cbn [fst] in Sc.
  pose proof (submitted_shape old new (actions r) n1) as Sa.
  destruct (migrate_items old new (actions r) n1) as [ma n2]. cbn [fst] in Sa.
  destruct n2; [|discriminate].
  cbn [p_conditions p_actions].
  intros Hp.
  assert (Hpay : payload = {| p_conditions := if Nat.ltb 0 (length mc) then Some mc else None;
                              p_actions := if Nat.ltb 0 (length ma) then Some ma else None |}).
  { destruct (Nat.ltb 0 (length mc)), (Nat.ltb 0 (length ma)); congruence. }
  subst payload. cbn [p_conditions p_actions]. split; intros submitted Hs.
  - apply Sc; assumption.
  - apply Sa; assumption.
Qed.

(** ** Group migrator *)

Lemma assoc_In {A} k (l : list (string * A)) a : assoc k l = Some a -> In (k, a) l.
Proof.
  induction l as [|[k' a'] l IH]; simpl; [discriminate|].
  destruct (String.eqb k k') eqn:Hk.
  - apply String.eqb_eq in Hk as ->. intros [= ->]. left. reflexivity.
  - intros H. right. apply IH, H.
Qed.

Lemma key_assoc {A} k (l : list (string * A)) :
  In k (map fst l) -> exists a, assoc k l = Some a.
Proof.
  induction l as [|[k' a] l IH]; simpl; [tauto|].
  intros H. destruct (String.eqb k k') eqn:Hk; [eauto|].
  destruct H as [H | H]; [|auto].
  apply String.eqb_neq in Hk. congruence.
Qed.




Lemma list_includes_In l x : list_includes l x = true <-> In x l.
Proof.
  unfold list_includes. rewrite existsb_exists. split.
  - intros (y & Hy & Heq). apply String.eqb_eq in Heq as ->. exact Hy.
  - intros H. exists x. split; [exact H | apply String.eqb_refl].
Qed.




Lemma strings_of_map l : strings_of (map VStr l) = Some l.
Proof. induction l as [|x l IH]; [reflexivity|]. cbn [map strings_of]. rewrite IH. reflexivity. Qed.

(** The bridge reads the list of a write of step 2 off its body. *)
Lemma bridge_store_put groupId lights groups :
  bridge_store (group_put groupId lights) groups
  = update_first groupId (fun _ => {| g_lights := Some lights |}) groups.
Proof.
  unfold bridge_store, group_put, str_array. cbn [PUT r_path r_body r_method is_put].
  change (String.eqb "PUT" "PUT") with true. cbn [andb].
  rewrite startsWith_app.
  change (body_lights (Some (VObj [("lights", VArr (map VStr lights))])))
    with (strings_of (map VStr lights)).
  rewrite strings_of_map.
  change 7 with (String.length "groups/"). rewrite substring_from_app. reflexivity.
Qed.

Lemma add_to_groups_cons ok new groupId rest groups :
  add_to_groups ok new (groupId :: rest) groups =
  let get := GET V1 ("groups/" +:+ groupId) in
  let cur := default [] (g_lights (group_body groups groupId)) in
  let put := group_put groupId (cur ++ [new]) in
  let writes := ok get && negb (list_includes cur new) in
  let stored :=
    if writes && ok put
    then update_first groupId (fun _ => {| g_lights := Some (cur ++ [new]) |}) groups
    else groups in
  (fst (add_to_groups ok new rest stored),
   get :: (if writes then [put] else []) ++ snd (add_to_groups ok new rest stored)).
Proof.
  cbn [add_to_groups]. cbv zeta.
  destruct (ok (GET V1 ("groups/" +:+ groupId))); cbn [andb].
  - destruct (list_includes (default [] (g_lights (group_body groups groupId))) new);
      cbn [negb andb].
    + destruct (add_to_groups ok new rest groups). reflexivity.
    + rewrite bridge_store_put. destruct (ok (group_put _ _));
        match goal with |- context [add_to_groups ok new rest ?s] =>
          destruct (add_to_groups ok new rest s) end; reflexivity.
  - destruct (add_to_groups ok new rest groups). reflexivity.
Qed.










(** ** Scene migrator *)

Lemma discover_scenes_cons fetch old sceneId rest :
  discover_scenes fetch old (sceneId :: rest) =
  (match fetch sceneId with
   | Ok sc =>
     if involves_old old sc
     then (sceneId, sc) :: fst (discover_scenes fetch old rest)
     else fst (discover_scenes fetch old rest)
   | Err _ => fst (discover_scenes fetch old rest)
   end,
   scene_get sceneId :: snd (discover_scenes fetch old rest)).
Proof.
  cbn [discover_scenes]. destruct (discover_scenes fetch old rest) as [found calls].
  destruct (fetch sceneId) as [sc|msg]; [destruct (involves_old old sc)|]; reflexivity.
Qed.

Lemma discover_calls fetch old sceneIds :
  snd (discover_scenes fetch old sceneIds) = map scene_get sceneIds.
Proof.
  induction sceneIds as [|sceneId rest IH]; [reflexivity|].
  rewrite discover_scenes_cons. cbn [snd map]. rewrite IH. reflexivity.
Qed.

Lemma discover_found fetch old sceneIds sceneId sc :
  In (sceneId, sc) (fst (discover_scenes fetch old sceneIds))
  <-> In sceneId sceneIds /\ fetch sceneId = Ok sc /\ involves_old old sc = true.
Proof.
  induction sceneIds as [|id rest IH].
  - simpl. tauto.
  - rewrite discover_scenes_cons. cbn [fst].
    destruct (fetch id) as [sc'|msg] eqn:Hf; [destruct (involves_old old sc') eqn:Hi|].
    + simpl. rewrite IH. split.
      * intros [[= <- <-] | (H1 & H2 & H3)]; auto.
      * intros ([<- | H1] & H2 & H3); [left; congruence | right; auto].
    + rewrite IH. simpl. split.
      * intros (H1 & H2 & H3); auto.
      * intros ([<- | H1] & H2 & H3); [congruence | auto].
    + rewrite IH. simpl. split.
      * intros (H1 & H2 & H3); auto.
      * intros ([<- | H1] & H2 & H3); [congruence | auto].
Qed.

Lemma opt_includes_In l x :
  opt_includes l x = true <-> exists lights, l = Some lights /\ In x lights.
Proof.
  destruct l as [lights|]; cbn [opt_includes].
  - rewrite list_includes_In. split; [eauto | intros (l' & [= <-] & H); exact H].
  - split; [discriminate | intros (l' & H & _); discriminate H].
Qed.

Lemma lightstate_of_Some sc lightId :
  is_Some (lightstate_of sc lightId)
  <-> exists states, s_lightstates sc = Some states /\ In lightId (map fst states).
Proof.
  unfold lightstate_of. destruct (s_lightstates sc) as [states|].
  - split.
    + intros [state Hs]. exists states. split; [reflexivity|].
      apply in_map_iff. exists (lightId, state). split; [reflexivity | apply assoc_In, Hs].
    + intros (states' & [= <-] & Hin). destruct (key_assoc _ _ Hin) as [state Hs]. eauto.
  - split; [intros [x Hx]; discriminate Hx | intros (states & H & _); discriminate H].
Qed.

(** The writes of the second pass on one stored scene. *)
Lemma modify_scene_calls put_ok old new sceneId sc req :
  In req (modify_scene put_ok old new (sceneId, sc)) ->
  (exists states state,
     s_lightstates sc = Some states /\ assoc old states = Some state
     /\ req = PUT V1 ("scenes/" +:+ sceneId +:+ "/lightstates/" +:+ new) (VObj state))
  \/ (exists lights,
        s_lights sc = Some lights /\ In old lights /\ ~ In new lights
        /\ req = PUT V1 ("scenes/" +:+ sceneId)
                   (VObj [("lights", VArr (map VStr (lights ++ [new])))])).
Proof.
  assert (Hlist : In req (scene_lights_update new sceneId sc old) ->
            exists lights,
              s_lights sc = Some lights /\ In old lights /\ ~ In new lights
              /\ req = PUT V1 ("scenes/" +:+ sceneId)
                         (VObj [("lights", VArr (map VStr (lights ++ [new])))])).
  { unfold scene_lights_update.
    destruct (opt_includes (s_lights sc) old) eqn:Ho; [|intros []].
    destruct (opt_includes (s_lights sc) new) eqn:Hn; [intros []|].
    cbn [negb andb]. intros [<- | []].
    apply opt_includes_In in Ho as (lights & Hl & Ho).
    exists lights. rewrite Hl in Hn |- *. cbn [opt_includes] in Hn.
    split; [reflexivity|]. split; [exact Ho|]. split; [|reflexivity].
    rewrite <- list_includes_In, Hn. discriminate. }
  unfold modify_scene, lightstate_of.
  destruct (s_lightstates sc) as [states|]; [|intros H; right; apply Hlist, H].
  destruct (assoc old states) as [state|] eqn:Hs; [|intros H; right; apply Hlist, H].
  assert (Hcopy : forall r,
            r = PUT V1 ("scenes/" +:+ sceneId +:+ "/lightstates/" +:+ new) (VObj state) ->
            exists states' state',
              Some states = Some states' /\ assoc old states' = Some state'
              /\ r = PUT V1 ("scenes/" +:+ sceneId +:+ "/lightstates/" +:+ new)
                       (VObj state'))
    by (intros r ->; exists states, state; auto).
  destruct (put_ok _).
  - intros [<- | H]; [left; apply Hcopy; reflexivity | right; apply Hlist, H].
  - intros [<- | []]. left. apply Hcopy. reflexivity.
Qed.

(** C9: the scenes found are exactly those of [scenesData] whose fetch
    succeeded and whose light list holds the old bulb or whose light states
    have an entry for it.  The calls of step 3 are the fetch of the scene
    list, then the fetch of every scene of the list, whether or not another
    fetch has failed, and only then the writes; every write is the copy of
    the old bulb's state in a scene that was found, or the light list of
    such a scene followed by the new bulb. *)
Theorem scene_discovery (fetch : string -> result scene) (put_ok : request -> bool)
    (old new : string) (sceneIds : list string) :
  let found := fst (scene_step fetch put_ok old new sceneIds) in
  let calls := snd (scene_step fetch put_ok old new sceneIds) in
  (forall sceneId sc,
     In (sceneId, sc) found
     <-> In sceneId sceneIds /\ fetch sceneId = Ok sc
         /\ ((exists lights, s_lights sc = Some lights /\ In old lights)
             \/ (exists states,
                   s_lightstates sc = Some states /\ In old (map fst states))))
  /\ exists writes,
       calls = GET V1 "scenes"
               :: map (fun sceneId => GET V1 ("scenes/" +:+ sceneId)) sceneIds ++ writes
       /\ Forall
            (fun req =>
               exists sceneId sc,
                 In (sceneId, sc) found
                 /\ ((exists states state,
                        s_lightstates sc = Some states /\ assoc old states = Some state
                        /\ req = PUT V1 ("scenes/" +:+ sceneId +:+ "/lightstates/" +:+ new)
                                   (VObj state))
                     \/ (exists lights,
                           s_lights sc = Some lights /\ In old lights /\ ~ In new lights
                           /\ req = PUT V1 ("scenes/" +:+ sceneId)
                                      (VObj [("lights",
                                              VArr (map VStr (lights ++ [new])))]))))
            writes.
Proof.
  cbv zeta. unfold scene_step.
  pose proof (discover_calls fetch old sceneIds) as Hcalls.
  pose proof (discover_found fetch old sceneIds) as Hfound.
  destruct (discover_scenes fetch old sceneIds) as [found calls].
  cbn [fst snd] in *. subst calls. split.
  - intros sceneId sc. rewrite Hfound. unfold involves_old.
    rewrite orb_true_iff, bool_decide_eq_true, opt_includes_In, lightstate_of_Some.
    reflexivity.
  - exists (flat_map (modify_scene put_ok old new) found).
    split; [reflexivity|].
    apply Forall_forall. intros req Hreq.
    apply list_elem_of_In, in_flat_map in Hreq as ([sceneId sc] & Hin & Hreq).
    exists sceneId, sc. split; [exact Hin|].
    apply (modify_scene_calls put_ok), Hreq.
Qed.

(** C9 on three scenes that hold bulb 5, the second in its states only,
    where the fetch of the first fails: the two others are found, the first
    is not. *)
Lemma scene_discovery_witness :
  let a := {| s_lights := Some ["5"]; s_lightstates := None |} in
  let b := {| s_lights := Some ["3"]; s_lightstates := Some [("5", [("on", VBool true)])] |} in
  let fetch := fun sceneId =>
                 if String.eqb sceneId "a" then Err "HTTP error! Status: 500"
                 else if String.eqb sceneId "b" then Ok b else Ok a in
  In ("b", b) (fst (scene_step fetch (fun _ => true) "5" "7" ["a"; "b"; "c"]))
  /\ In ("c", a) (fst (scene_step fetch (fun _ => true) "5" "7" ["a"; "b"; "c"]))
  /\ ~ In ("a", a) (fst (scene_step fetch (fun _ => true) "5" "7" ["a"; "b"; "c"])).
Proof.
  cbv zeta.
  pose proof (proj1 (scene_discovery
                       (fun sceneId =>
                          if String.eqb sceneId "a" then Err "HTTP error! Status: 500"
                          else if String.eqb sceneId "b"
                               then Ok {| s_lights := Some ["3"];
                                          s_lightstates :=
                                            Some [("5", [("on", VBool true)])] |}
                               else Ok {| s_lights := Some ["5"]; s_lightstates := None |})
                       (fun _ => true) "5" "7" ["a"; "b"; "c"])) as H.
  cbv zeta in H. split; [|split].
  - apply H. split; [right; left; reflexivity|]. split; [reflexivity|].
    right. eexists. split; [reflexivity | left; reflexivity].
  - apply H. split; [right; right; left; reflexivity|]. split; [reflexivity|].
    left. eexists. split; [reflexivity | left; reflexivity].
  - intros Hin. apply H in Hin as (_ & Hfetch & _). discriminate Hfetch.
Defined.

(** ** Identifier reconciler *)

Lemma all_digits_slash (b k : string) : all_digits (b +:+ String "/" k) = false.
Proof.
  induction b as [|c b IH]; [reflexivity|].
  rewrite append_cons. simpl. rewrite IH. apply andb_false_r.
Qed.

Lemma digits_after_slash :
  forall a b d k,
    a +:+ d = b +:+ String "/" k -> String.length k < String.length d ->
    all_digits d = false.
Proof.
  induction a as [|x a IH]; intros b d k Heq Hlen.
  - rewrite append_nil_l in Heq. subst d. apply all_digits_slash.
  - destruct b as [|y b].
    + rewrite append_nil_l, append_cons in Heq. injection Heq as _ Heq.
      subst k. rewrite append_length in Hlen. lia.
    + rewrite !append_cons in Heq. injection Heq as _ Heq.
      apply (IH b d k); assumption.
Qed.

Lemma match_here_spec s d :
  match_here s = Some d <-> s = "/lights/" +:+ d /\ d <> "" /\ all_digits d = true.
Proof.
  unfold match_here. split.
  - destruct (startsWith s "/lights/") eqn:Hs; [|discriminate].
    apply startsWith_split in Hs. simpl String.length in Hs.
    destruct (substring_from 8 s) as [|c d'] eqn:Hd; [discriminate|].
    destruct (all_digits (String c d')) eqn:Hdig; [|discriminate].
    intros [= <-]. repeat split; [exact Hs | discriminate | exact Hdig].
  - intros (-> & Hne & Hdig).
    rewrite startsWith_app.
    change 8 with (String.length "/lights/"). rewrite substring_from_app.
    destruct d; [congruence|]. rewrite Hdig. reflexivity.
Qed.

Lemma v1IdMatch_spec s k : v1IdMatch s = Some k <-> ends_in_lights_id s k.
Proof.
  unfold ends_in_lights_id. split.
  - induction s as [|c s IH]; cbn [v1IdMatch].
    + destruct (match_here "") as [d|] eqn:Hm; [|discriminate].
      intros [= ->]. apply match_here_spec in Hm as (H1 & H2 & H3).
      exists "". auto.
    + destruct (match_here (String c s)) as [d|] eqn:Hm.
      * intros [= ->]. apply match_here_spec in Hm as (H1 & H2 & H3).
        exists "". auto.
      * intros H. destruct (IH H) as (pre & -> & H2 & H3).
        exists (String c pre). auto.
  - intros (pre & -> & Hne & Hdig).
    induction pre as [|c pre IH].
    + assert (Hm : match_here ("" +:+ "/lights/" +:+ k) = Some k)
        by (apply match_here_spec; auto).
      rewrite append_nil_l in *.
      destruct ("/lights/" +:+ k); cbn [v1IdMatch]; rewrite Hm; reflexivity.
    + rewrite append_cons. cbn [v1IdMatch].
      destruct (match_here (String c (pre +:+ "/lights/" +:+ k))) as [d|] eqn:Hm;
        [|exact IH].
      exfalso. apply match_here_spec in Hm as (Heq & _ & Hd).
      assert (Hlen : String.length k < String.length d).
      { apply (f_equal String.length) in Heq.
        rewrite append_length in Heq. simpl in Heq.
        rewrite !append_length in Heq. simpl in Heq. lia. }
      change (String c (pre +:+ "/lights/" +:+ k))
        with (String c pre +:+ ("/lights" +:+ String "/" k)) in Heq.
      rewrite <- append_assoc in Heq. symmetry in Heq.
      rewrite (digits_after_slash _ _ _ _ Heq Hlen) in Hd. discriminate.
Qed.

Lemma add_light_to_map_eq m light :
  add_light_to_map m light
  = match backref light with
    | Some k => <[k := id light]> m
    | None => m
    end.
Proof.
  unfold add_light_to_map, backref. destruct (truthy_str (id_v1 light)); reflexivity.
Qed.

Lemma backref_spec light k :
  backref light = Some k
  <-> exists path, id_v1 light = Some path /\ ends_in_lights_id path k.
Proof.
  unfold backref. split.
  - destruct (id_v1 light) as [path|]; [|discriminate].
    destruct (truthy_str (Some path)); [|discriminate].
    simpl. intros H. exists path. split; [reflexivity | apply v1IdMatch_spec, H].
  - intros (path & -> & Hends).
    assert (Ht : truthy_str (Some path) = true).
    { destruct Hends as (pre & -> & _). destruct pre; reflexivity. }
    rewrite Ht. simpl. apply v1IdMatch_spec, Hends.
Qed.

Lemma split_last {A} (l1 l2 data : list A) (a x : A) :
  l1 ++ a :: l2 = data ++ [x] ->
  (l2 = [] /\ l1 = data /\ a = x)
  \/ exists l2', l2 = l2' ++ [x] /\ data = l1 ++ a :: l2'.
Proof.
  destruct l2 as [|y l2 _] using rev_ind; intros H.
  - left. change (l1 ++ [a] = data ++ [x]) in H.
    apply app_inj_tail in H as [-> ->]. auto.
  - right. change (l1 ++ a :: l2 ++ [y]) with (l1 ++ (a :: l2) ++ [y]) in H.
    rewrite app_assoc in H. apply app_inj_tail in H as [<- ->].
    exists l2. auto.
Qed.

(** The map holds, at a legacy id, the GUID of the last resource of the
    response whose back-reference carries that id. *)
Lemma build_map_spec data k g :
  build_v1ToV2IdMap data !! k = Some g
  <-> exists l1 light l2,
        data = l1 ++ light :: l2 /\ id light = g /\ backref light = Some k
        /\ forall light', In light' l2 -> backref light' <> Some k.
Proof.
  unfold build_v1ToV2IdMap. revert g.
  induction data as [|x data IH] using rev_ind; intros g.
  - simpl. rewrite lookup_empty. split; [discriminate|].
    intros (l1 & light & l2 & H & _). destruct l1; discriminate.
  - rewrite fold_left_app. cbn [fold_left]. rewrite add_light_to_map_eq.
    assert (Hkeep : backref x <> Some k ->
              (fold_left add_light_to_map data ∅ !! k = Some g
               <-> exists l1 light l2,
                     data ++ [x] = l1 ++ light :: l2 /\ id light = g
                     /\ backref light = Some k
                     /\ forall light', In light' l2 -> backref light' <> Some k)).
    { intros Hx. rewrite IH. split.
      - intros (l1 & light & l2 & -> & Hid & Hb & Hl2).
        exists l1, light, (l2 ++ [x]). rewrite <- app_assoc. repeat split; auto.
        intros light' Hin. apply in_app_or in Hin as [Hin | [<- | []]]; auto.
      - intros (l1 & light & l2 & Heq & Hid & Hb & Hl2).
        symmetry in Heq.
        apply split_last in Heq as [(-> & -> & ->) | (l2' & -> & ->)]; [congruence|].
        exists l1, light, l2'. repeat split; auto.
        intros light' Hin. apply Hl2, in_or_app. left. exact Hin. }
    destruct (backref x) as [k0|] eqn:Hx; [|apply Hkeep; discriminate].
    destruct (decide (k0 = k)) as [-> | Hne].
    + rewrite lookup_insert_eq. split.
      * intros [= <-]. exists data, x, []. repeat split; auto.
      * intros (l1 & light & l2 & Heq & Hid & Hb & Hl2).
        symmetry in Heq.
        apply split_last in Heq as [(-> & -> & ->) | (l2' & -> & ->)];
          [congruence|].
        exfalso. apply (Hl2 x); [apply in_or_app; right; left; reflexivity | exact Hx].
    + rewrite lookup_insert_ne by exact Hne. apply Hkeep. congruence.
Qed.

Lemma build_map_none data k :
  build_v1ToV2IdMap data !! k = None
  <-> forall light, In light data -> backref light <> Some k.
Proof.
  split.
  - intros Hnone light Hin Hb.
    apply in_split in Hin as (l1 & l2 & ->).
    assert (Hlast : forall l2 l1 light, backref light = Some k ->
              exists g, build_v1ToV2IdMap (l1 ++ light :: l2) !! k = Some g).
    { clear. induction l2 as [|y l2 IH] using rev_ind; intros l1 light Hb.
      - exists (id light). apply build_map_spec. exists l1, light, [].
        repeat split; auto.
      - destruct (IH l1 light Hb) as (g & Hg).
        unfold build_v1ToV2IdMap in *.
        change (l1 ++ light :: l2 ++ [y]) with (l1 ++ (light :: l2) ++ [y]).
        rewrite app_assoc, fold_left_app. cbn [fold_left].
        rewrite add_light_to_map_eq.
        destruct (backref y) as [k0|]; [|eauto].
        destruct (decide (k0 = k)) as [-> | Hne].
        + rewrite lookup_insert_eq. eauto.
        + rewrite lookup_insert_ne by exact Hne. eauto. }
    destruct (Hlast l2 l1 light Hb) as (g & Hg). congruence.
  - intros Hall. destruct (build_v1ToV2IdMap data !! k) as [g|] eqn:Hg; [|reflexivity].
    exfalso. apply build_map_spec in Hg as (l1 & light & l2 & -> & _ & Hb & _).
    apply (Hall light); [apply in_or_app; right; left; reflexivity | exact Hb].
Qed.

(** C5, as the spec states it, fails: the map is built from the modern
    collection alone, so a resource whose back-reference names a light that
    the legacy collection lacks is mapped all the same.  Here light 9 is in
    one collection only and the map holds it. *)
Lemma identifier_map_counterexample :
  let lights := [("5", {| name := "Lamp" |})] in
  let data := [{| id := "guid9"; id_v1 := Some "/lights/9" |}] in
  assoc "9" lights = None
  /\ exists m,
       v1ToV2IdMap (fetchLights (Ok (Some lights)) (Ok (Some data))) = Some m
       /\ m !! "9" = Some "guid9".
Proof.
  cbv zeta. split; [reflexivity|].
  eexists. split; [reflexivity|]. vm_compute. reflexivity.
Qed.

(** C5 (amended): from the two responses the handler keeps the legacy
    collection as it came and builds a map that holds [legacyId -> guid]
    exactly when [guid] is the id of the last modern resource whose
    back-reference is a path ending in [/lights/{legacyId}]; an id that no
    back-reference names is absent from the map (no entry at all); the
    legacy collection is not consulted. *)
Theorem identifier_map (lights : list (string * v1light)) (data : list v2light) :
  let st := fetchLights (Ok (Some lights)) (Ok (Some data)) in
  exists m,
    v1ToV2IdMap st = Some m
    /\ allV1Lights st = Some lights
    /\ (forall legacyId guid,
          m !! legacyId = Some guid
          <-> exists before light after,
                data = before ++ light :: after
                /\ id light = guid
                /\ (exists path, id_v1 light = Some path
                                 /\ ends_in_lights_id path legacyId)
                /\ forall light' path,
                     In light' after -> id_v1 light' = Some path ->
                     ~ ends_in_lights_id path legacyId)
    /\ (forall legacyId,
          m !! legacyId = None
          <-> forall light path,
                In light data -> id_v1 light = Some path ->
                ~ ends_in_lights_id path legacyId).
Proof.
  cbv zeta. exists (build_v1ToV2IdMap data). repeat split.
  - intros H. apply build_map_spec in H as (l1 & light & l2 & -> & Hid & Hb & Hl2).
    exists l1, light, l2. repeat split; auto.
    + apply backref_spec, Hb.
    + intros light' path Hin Hp He. apply (Hl2 light' Hin).
      apply backref_spec. eauto.
  - intros (l1 & light & l2 & -> & Hid & Hb & Hl2).
    apply build_map_spec. exists l1, light, l2. repeat split; auto.
    + apply backref_spec, Hb.
    + intros light' Hin Hb'. apply backref_spec in Hb' as (path & Hp & He).
      apply (Hl2 light' path Hin Hp He).
  - intros H light path Hin Hp He.
    rewrite build_map_none in H. apply (H light Hin). apply backref_spec. eauto.
  - intros H. apply build_map_none. intros light Hin Hb.
    apply backref_spec in Hb as (path & Hp & He). apply (H light path Hin Hp He).
Qed.

(** ** Start of a run and identity transfer *)

Lemma truthy_str_Some r : truthy_str r = true -> exists s, r = Some s /\ s <> "".
Proof.
  destruct r as [[|c s]|]; try discriminate. intros _. eexists. split; [reflexivity|].
  discriminate.
Qed.

Lemma start_plan_inv st selOld selNew p :
  start_plan st selOld selNew = Some p ->
  exists old new lights ol nl m,
    selOld = Some old /\ selNew = Some new /\ old <> new
    /\ allV1Lights st = Some lights
    /\ assoc old lights = Some ol /\ assoc new lights = Some nl
    /\ v1ToV2IdMap st = Some m
    /\ p = {| oldV1 := old; newV1 := new;
              oldLightV2Id := m !! old; newLightV2Id := m !! new;
              originalOldLightName := name ol |}.
Proof.
  unfold start_plan.
  destruct (truthy_str selOld) eqn:Ho; [|discriminate].
  destruct (truthy_str selNew) eqn:Hn; [|discriminate].
  apply truthy_str_Some in Ho as (old & -> & _).
  apply truthy_str_Some in Hn as (new & -> & _).
  simpl. destruct (String.eqb old new) eqn:Heq; [discriminate|].
  apply String.eqb_neq in Heq.
  destruct (allV1Lights st) as [lights|]; [|discriminate].
  destruct (assoc old lights) as [ol|] eqn:Hol; [|discriminate].
  destruct (assoc new lights) as [nl|] eqn:Hnl; [|discriminate].
  destruct (v1ToV2IdMap st) as [m|]; [|discriminate].
  intros [= <-]. exists old, new, lights, ol, nl, m. repeat split; auto.
Qed.

Lemma suffixed_name_differs (n suffix : string) :
  suffix <> "" -> String.eqb (n +:+ suffix) n = false.
Proof.
  intros Hs. apply String.eqb_neq. intros H.
  apply (f_equal String.length) in H. rewrite append_length in H.
  destruct suffix; [congruence | simpl in H; lia].
Qed.

Lemma add_to_groups_paths ok new :
  forall ids groups req,
    In req (snd (add_to_groups ok new ids groups)) ->
    exists k, r_path req = "groups/" +:+ k.
Proof.
  induction ids as [|groupId rest IH]; intros groups req; [intros []|].
  rewrite add_to_groups_cons. cbv zeta. cbn [snd].
  intros [<- | Hin]; [exists groupId; reflexivity|].
  apply in_app_or in Hin as [Hin | Hin]; [|eapply IH, Hin].
  destruct (_ && _); [|destruct Hin].
  destruct Hin as [<- | []]. exists groupId. reflexivity.
Qed.

Lemma group_calls_off_lights ok old new groups req :
  In req (snd (group_migration ok old new groups)) -> off_lights req.
Proof.
  unfold group_migration. destruct (ok (GET V1 "groups")).
  - destruct (add_to_groups ok new (groupsWithOldLight old groups) groups)
      as [groups' calls] eqn:Hrun.
    cbn [snd]. intros [<- | Hin]; [split; reflexivity|].
    replace calls with (snd (add_to_groups ok new (groupsWithOldLight old groups) groups))
      in Hin by (rewrite Hrun; reflexivity).
    apply add_to_groups_paths in Hin as [k Hk].
    unfold off_lights. rewrite Hk. split; reflexivity.
  - cbn [snd]. intros [<- | []]. split; reflexivity.
Qed.

Lemma scene_calls_off_lights fetch put_ok old new sceneIds req :
  In req (snd (scene_step fetch put_ok old new sceneIds)) -> off_lights req.
Proof.
  unfold scene_step.
  pose proof (discover_calls fetch old sceneIds) as Hcalls.
  destruct (discover_scenes fetch old sceneIds) as [found calls].
  cbn [fst snd] in *. subst calls.
  intros [<- | Hin]; [split; reflexivity|].
  apply in_app_or in Hin as [Hin | Hin].
  - apply in_map_iff in Hin as (sceneId & <- & _). split; reflexivity.
  - apply in_flat_map in Hin as ([sceneId sc] & _ & Hin).
    apply modify_scene_calls in Hin
      as [(states & state & _ & _ & ->) | (lights & _ & _ & _ & ->)];
      split; reflexivity.
Qed.

Lemma behavior_step_off_lights old new fetch :
  forall instances req,
    In req (behavior_step old new fetch instances) -> off_lights req.
Proof.
  induction instances as [|instance rest IH]; intros req; [intros []|].
  cbn [behavior_step].
  destruct (negb (truthy_str (bi_id instance)) || negb (truthy (bi_configuration instance)));
    [apply IH|].
  destruct (JSON_stringify (bi_configuration instance)) as [configString|]; [|apply IH].
  destruct (includes configString (to_string old)); [|apply IH].
  intros [<- | Hin]; [split; reflexivity|].
  apply in_app_or in Hin as [Hin | Hin]; [|apply IH, Hin].
  unfold update_instance in Hin.
  destruct (fetch (to_string (bi_id instance))) as [[config|]|]; try destruct Hin.
  destruct (truthy config); [|destruct Hin].
  destruct (addLightReference _ _ _ _) as [[config' []]|]; try destruct Hin.
  - subst req. split; reflexivity.
  - destruct H.
Qed.

Lemma behavior_calls_off_lights p behaviorData fetch req :
  In req (behavior_calls p behaviorData fetch) -> off_lights req.
Proof.
  unfold behavior_calls. intros [<- | Hin]; [split; reflexivity|].
  eapply behavior_step_off_lights, Hin.
Qed.

Lemma rule_calls_requests old new rulesData r :
  In (Api r) (rule_calls old new rulesData) -> r = GET V1 "rules".
Proof.
  unfold rule_calls. intros [[= <-] | Hin]; [reflexivity|].
  apply in_map_iff in Hin as ([ruleId payload] & Heq & _). discriminate Heq.
Qed.

Lemma in_map_Api r l : In (Api r) (map Api l) -> In r l.
Proof.
  intros H. apply in_map_iff in H as (r' & [= ->] & H). exact H.
Qed.

(** The modern rename, by cases on the GUID. *)
Lemma v2_rename_if_known_eq guid target :
  v2_rename_if_known guid target
  = match guid with
    | Some (String c g) =>
      [PUT V2 ("resource/light/" +:+ String c g)
         (VObj [("metadata", VObj [("name", VStr target)])])]
    | _ => []
    end.
Proof. destruct guid as [[|c g]|]; reflexivity. Qed.

(** C7: the names are made from the name the legacy collection holds for
    the old bulb.  When the two lists that the run needs (groups, line 541,
    and scenes, line 577) are read, the run reaches its summary, and its
    calls to a light are, in this order: in standard mode the rename of the
    old bulb to its name followed by [ (old)] and the rename of the new bulb
    to the old bulb's name; in alternate mode no call for the old bulb, and
    the rename of the new bulb to the old bulb's name followed by [ (new)];
    each through the legacy API, and through the modern API for a bulb
    whose GUID is known; then the startup configuration.  When one of the
    two lists cannot be read, the run ends there and no light is renamed. *)
Theorem rename_policy (st : lights_state) (selOld selNew : option string)
    (useAltRename : bool) (oldStartupConfig : value) (b : bridge_answers) (p : plan) :
  start_plan st selOld selNew = Some p ->
  let n := originalOldLightName p in
  let v1 lightId target :=
    PUT V1 ("lights/" +:+ lightId) (VObj [("name", VStr target)]) in
  let v2 guid target :=
    match guid with
    | Some (String c g) =>
      [PUT V2 ("resource/light/" +:+ String c g)
         (VObj [("metadata", VObj [("name", VStr target)])])]
    | _ => []
    end in
  let renames :=
    if useAltRename
    then v1 (newV1 p) (n +:+ " (new)") :: v2 (newLightV2Id p) (n +:+ " (new)")
    else (v1 (oldV1 p) (n +:+ " (old)") :: v2 (oldLightV2Id p) (n +:+ " (old)"))
         ++ v1 (newV1 p) n :: v2 (newLightV2Id p) n in
  let run := replacement st selOld selNew useAltRename oldStartupConfig b in
  (exists lights ol,
     allV1Lights st = Some lights /\ selOld = Some (oldV1 p) /\ selNew = Some (newV1 p)
     /\ assoc (oldV1 p) lights = Some ol /\ n = name ol)
  /\ (b_ok b (GET V1 "groups") = true ->
      forall sceneIds, b_scenesData b = Ok sceneIds ->
      exists before after,
        run = Some (before ++ map Api renames ++ map Api after, true)
        /\ (forall r, In (Api r) before ->
              startsWith (r_path r) "lights/" = false
              /\ startsWith (r_path r) "resource/light/" = false)
        /\ (forall r, In r after ->
              r_path r = "lights/" +:+ newV1 p +:+ "/config"))
  /\ (b_ok b (GET V1 "groups") = false \/ (exists message, b_scenesData b = Err message) ->
      exists trace,
        run = Some (trace, false)
        /\ forall r, In (Api r) trace ->
             startsWith (r_path r) "lights/" = false
             /\ startsWith (r_path r) "resource/light/" = false).
Proof.
  intros Hp. cbv zeta. split; [|split].
  - apply start_plan_inv in Hp
      as (old & new & lights & ol & nl & m & -> & -> & _ & Hl & Hol & _ & _ & ->).
    exists lights, ol. simpl. auto.
  - intros Hgroups sceneIds Hscenes.
    unfold replacement. rewrite Hp, Hgroups, Hscenes.
    set (group_calls := snd (group_migration (b_ok b) (oldV1 p) (newV1 p) (b_groups b))).
    set (scene_calls := snd (scene_step (b_scene b) (b_ok b) (oldV1 p) (newV1 p) sceneIds)).
    set (rules := rule_calls (oldV1 p) (newV1 p) (b_rulesData b)).
    set (behavior := behavior_calls p (b_behaviorData b) (b_instance b)).
    exists (map Api (group_calls ++ scene_calls) ++ rules ++ map Api behavior),
           (startup_step (newV1 p) oldStartupConfig).
    split; [|split].
    + unfold rename_strategy.
      destruct useAltRename; cbv beta iota; unfold rename_old, rename_new;
        rewrite !v2_rename_if_known_eq.
      * rewrite String.eqb_refl. cbn [negb app]. unfold v1_rename.
        repeat (rewrite map_app || rewrite map_cons || rewrite <- app_assoc
                || rewrite <- app_comm_cons).
        reflexivity.
      * rewrite suffixed_name_differs by discriminate. cbn [negb]. unfold v1_rename.
        repeat (rewrite map_app || rewrite map_cons || rewrite <- app_assoc
                || rewrite <- app_comm_cons).
        reflexivity.
    + intros r Hin. apply in_app_or in Hin as [Hin | Hin].
      * apply in_map_Api, in_app_or in Hin as [Hin | Hin].
        -- exact (group_calls_off_lights _ _ _ _ _ Hin).
        -- exact (scene_calls_off_lights _ _ _ _ _ _ Hin).
      * apply in_app_or in Hin as [Hin | Hin].
        -- apply rule_calls_requests in Hin as ->. split; reflexivity.
        -- apply in_map_Api in Hin. exact (behavior_calls_off_lights _ _ _ _ Hin).
    + intros r. unfold startup_step. destruct (truthy oldStartupConfig); [|intros []].
      intros [<- | []]. reflexivity.
  - intros Hfail. unfold replacement. rewrite Hp.
    destruct (rename_strategy useAltRename (originalOldLightName p)) as [oldName newName].
    destruct (b_ok b (GET V1 "groups")) eqn:Hgroups.
    + destruct Hfail as [Hfail | [message Hscenes]]; [discriminate Hfail|].
      rewrite Hscenes. eexists. split; [reflexivity|].
      intros r Hin. apply in_map_Api, in_app_or in Hin as [Hin | Hin].
      * exact (group_calls_off_lights _ _ _ _ _ Hin).
      * destruct Hin as [<- | []]. split; reflexivity.
    + eexists. split; [reflexivity|].
      intros r Hin. apply in_map_Api in Hin.
      exact (group_calls_off_lights _ _ _ _ _ Hin).
Qed.

(** C7 at the scenario of the spec: lights 5 (Lamp) and 7 (Lamp2), standard
    mode, no GUID known, on a bridge that answers every call and holds
    nothing that names bulb 5. *)
Lemma rename_policy_witness :
  let st := {| allV1Lights := Some [("5", {| name := "Lamp" |}); ("7", {| name := "Lamp2" |})];
               v1ToV2IdMap := Some ∅ |} in
  let b := {| b_ok := fun _ => true; b_groups := []; b_scenesData := Ok [];
              b_scene := fun _ => Err "not available";
              b_rulesData := Ok []; b_behaviorData := Ok (Some []);
              b_instance := fun _ => Err "not available" |} in
  exists before after,
    replacement st (Some "5") (Some "7") false VUndef b
    = Some (before
            ++ map Api [PUT V1 "lights/5" (VObj [("name", VStr "Lamp (old)")]);
                        PUT V1 "lights/7" (VObj [("name", VStr "Lamp")])]
            ++ map Api after, true).
Proof.
  cbv zeta.
  destruct (rename_policy
              {| allV1Lights := Some [("5", {| name := "Lamp" |});
                                      ("7", {| name := "Lamp2" |})];
                 v1ToV2IdMap := Some ∅ |}
              (Some "5") (Some "7") false VUndef
              {| b_ok := fun _ => true; b_groups := []; b_scenesData := Ok [];
                 b_scene := fun _ => Err "not available";
                 b_rulesData := Ok []; b_behaviorData := Ok (Some []);
                 b_instance := fun _ => Err "not available" |}
              {| oldV1 := "5"; newV1 := "7";
                 oldLightV2Id := None; newLightV2Id := None;
                 originalOldLightName := "Lamp" |})
    as (_ & H & _); [vm_compute; reflexivity|].
  destruct (H eq_refl [] eq_refl) as (before & after & Heq & _).
  exists before, after. exact Heq.
Defined.

(** ** Automation migrator with a missing GUID *)

(** C6 fails on the code: the guard that would stop a run with a missing
    GUID is commented out (lines 479-480 and 485-486), and the loop over the
    behavior instances, unlike the renames of steps 4 and 5, does not test
    the GUIDs.  Here the new bulb has no GUID, the instance refers to the old
    bulb, and the configuration is written with a reference whose [rid] is
    [undefined]. *)
Lemma automation_partial_reference :
  let st := fetchLights
              (Ok (Some [("5", {| name := "Lamp" |}); ("7", {| name := "Lamp2" |})]))
              (Ok (Some [{| id := "guidA"; id_v1 := Some "/lights/5" |}])) in
  let config := VObj [("where", VArr [mk_ref (Some "guidA")])] in
  let instance := {| bi_id := Some "inst1"; bi_configuration := config |} in
  (exists p, start_plan st (Some "5") (Some "7") = Some p
             /\ oldLightV2Id p = Some "guidA" /\ newLightV2Id p = None)
  /\ automation_migration st (Some "5") (Some "7") (fun _ => Ok (Some config)) [instance]
     = Some [GET V2 (instance_path "inst1");
             PUT V2 (instance_path "inst1")
               (VObj [("configuration",
                       VObj [("where", VArr [mk_ref (Some "guidA"); mk_ref None])])])]
  /\ partial_ref (mk_ref None) = true
  /\ json_copy (mk_ref None) = VObj [("rtype", VStr "light")].
Proof.
  cbv zeta. split; [|repeat split; vm_compute; reflexivity].
  eexists. split; [vm_compute; reflexivity|]. split; reflexivity.
Qed.

(** ** Duplicate references *)

Section NoDuplicates.

Variables old new : string.

Lemma itemAddressExists_In items a :
  itemAddressExists (Some items) a = true <-> a ∈ addresses items.
Proof.
  unfold itemAddressExists, addresses. rewrite existsb_exists, list_elem_of_omap.
  split.
  - intros (it & Hin & Ha). exists it. split; [apply list_elem_of_In, Hin|].
    destruct (address it) as [a'|]; [|discriminate].
    apply String.eqb_eq in Ha as ->. reflexivity.
  - intros (it & Hin & Ha). exists it. split; [apply list_elem_of_In, Hin|].
    rewrite Ha. apply String.eqb_refl.
Qed.

Lemma addresses_cons it items :
  addresses (it :: items)
  = match address it with
    | Some a => a :: addresses items
    | None => addresses items
    end.
Proof. reflexivity. Qed.

Lemma addresses_copy items : addresses (map copy_item items) = addresses items.
Proof.
  induction items as [|it items IH]; [reflexivity|].
  cbn [map]. rewrite !addresses_cons, IH. reflexivity.
Qed.

Lemma addresses_readdress items :
  addresses (map (readdress old new) items) = map (new_address old new) items.
Proof.
  induction items as [|it items IH]; [reflexivity|].
  cbn [map]. rewrite addresses_cons, IH. reflexivity.
Qed.

End NoDuplicates.

Lemma count_refs_selem old new r items :
  count_refs r (map (fun x => if is_light_ref old x then x else scan_tree old new x) items)
  = count_refs r items.
Proof.
  induction items as [|x items IH]; [reflexivity|].
  cbn [map count_refs]. rewrite IH.
  rewrite (is_light_ref_selem old new r x). reflexivity.
Qed.

Lemma group_puts ok new :
  forall ids groups req,
    In req (snd (add_to_groups ok new ids groups)) -> r_method req = "PUT" ->
    exists groupId currentLights,
      req = PUT V1 ("groups/" +:+ groupId)
              (VObj [("lights", VArr (map VStr (currentLights ++ [new])))])
      /\ ~ In new currentLights.
Proof.
  induction ids as [|groupId rest IH]; intros groups req; [intros []|].
  rewrite add_to_groups_cons. cbv zeta. cbn [snd].
  intros [<- | Hin] Hput; [discriminate Hput|].
  apply in_app_or in Hin as [Hin | Hin]; [|eapply IH; eauto].
  destruct (ok _ && negb _) eqn:Hw; [|destruct Hin].
  destruct Hin as [<- | []].
  apply andb_true_iff in Hw as [_ Hinc]. apply negb_true_iff in Hinc.
  exists groupId, (default [] (g_lights (group_body groups groupId))).
  split; [reflexivity|]. rewrite <- list_includes_In, Hinc. discriminate.
Qed.

(** *** The number of items at an address *)

Section RuleCounts.

Variables old new : string.

Lemma In_addresses items a : In a (omap address items) <-> In (Some a) (map address items).
Proof.
  rewrite <- list_elem_of_In, list_elem_of_omap, in_map_iff. split.
  - intros (it & Hin & Ha). exists it. split; [exact Ha | apply list_elem_of_In, Hin].
  - intros (it & Ha & Hin). exists it. split; [apply list_elem_of_In, Hin | exact Ha].
Qed.

Lemma count_addresses_cons it items a :
  count_occ string_dec (omap address (it :: items)) a
  = (match address it with
     | Some a' => if string_dec a' a then 1 else 0
     | None => 0
     end) + count_occ string_dec (omap address items) a.
Proof.
  change (omap address (it :: items))
    with (match address it with
          | Some a' => a' :: omap address items
          | None => omap address items
          end).
  destruct (address it) as [a'|]; [|reflexivity].
  cbn [count_occ]. destruct (string_dec a' a); reflexivity.
Qed.

Lemma count_addresses_app l1 l2 a :
  count_occ string_dec (omap address (l1 ++ l2)) a
  = count_occ string_dec (omap address l1) a + count_occ string_dec (omap address l2) a.
Proof. rewrite omap_app. apply count_occ_app. Qed.

Lemma count_addresses_copy items a :
  count_occ string_dec (omap address (map copy_item items)) a
  = count_occ string_dec (omap address items) a.
Proof.
  induction items as [|it items IH]; [reflexivity|].
  cbn [map]. rewrite !count_addresses_cons, IH. reflexivity.
Qed.

Variable original : list item.

Local Abbreviation added_of l :=
  (map (readdress old new) (List.filter (to_add old new (Some original)) l)).

Lemma count_added_cons it l a :
  count_occ string_dec (omap address (added_of (it :: l))) a
  = (if to_add old new (Some original) it
     then if string_dec (new_address old new it) a then 1 else 0
     else 0)
    + count_occ string_dec (omap address (added_of l)) a.
Proof.
  cbn [List.filter]. destruct (to_add old new (Some original) it); [|reflexivity].
  cbn [map]. rewrite count_addresses_cons. reflexivity.
Qed.

(** Nothing is added at an address that the original array holds. *)
Lemma count_added_held l a :
  In (Some a) (map address original) ->
  count_occ string_dec (omap address (added_of l)) a = 0.
Proof.
  intros Hin. induction l as [|it l IH]; [reflexivity|].
  rewrite count_added_cons, IH.
  destruct (to_add old new (Some original) it) eqn:Hadd; [|reflexivity].
  apply to_add_spec in Hadd as (suffix & _ & Hnew & Hno).
  destruct (string_dec (new_address old new it) a) as [<- |]; [|reflexivity].
  rewrite Hnew in Hin. contradiction.
Qed.

(** Nothing is added at an address that is not one of the new light. *)
Lemma count_added_other l a :
  (forall suffix, a <> "/lights/" +:+ new +:+ "/" +:+ suffix) ->
  count_occ string_dec (omap address (added_of l)) a = 0.
Proof.
  intros Ha. induction l as [|it l IH]; [reflexivity|].
  rewrite count_added_cons, IH.
  destruct (to_add old new (Some original) it) eqn:Hadd; [|reflexivity].
  apply to_add_spec in Hadd as (suffix & _ & Hnew & _).
  destruct (string_dec (new_address old new it) a) as [<- |]; [|reflexivity].
  exfalso. exact (Ha suffix Hnew).
Qed.

(** At an address of the new light that the original array lacks, one item
    is added for each item at the same address of the old light. *)
Lemma count_added_missing l suffix :
  ~ In (Some ("/lights/" +:+ new +:+ "/" +:+ suffix)) (map address original) ->
  count_occ string_dec (omap address (added_of l)) ("/lights/" +:+ new +:+ "/" +:+ suffix)
  = count_occ string_dec (omap address l) ("/lights/" +:+ old +:+ "/" +:+ suffix).
Proof.
  intros Hno. induction l as [|it l IH]; [reflexivity|].
  rewrite count_added_cons, count_addresses_cons, IH. f_equal.
  destruct (to_add old new (Some original) it) eqn:Hadd.
  - apply to_add_spec in Hadd as (suffix' & Ha & Hnew & _).
    rewrite Ha, Hnew.
    destruct (string_dec suffix' suffix) as [-> | Hne].
    + destruct (string_dec _ _); [|congruence].
      destruct (string_dec _ _); [reflexivity | congruence].
    + destruct (string_dec ("/lights/" +:+ new +:+ "/" +:+ suffix')
                           ("/lights/" +:+ new +:+ "/" +:+ suffix)) as [He|].
      { rewrite <- !prefix_suffix in He. apply append_inj_l in He. contradiction. }
      destruct (string_dec ("/lights/" +:+ old +:+ "/" +:+ suffix')
                           ("/lights/" +:+ old +:+ "/" +:+ suffix)) as [He|];
        [|reflexivity].
      rewrite <- !prefix_suffix in He. apply append_inj_l in He. contradiction.
  - destruct (address it) as [a'|] eqn:Ha; [|reflexivity].
    destruct (string_dec a' ("/lights/" +:+ old +:+ "/" +:+ suffix)) as [-> |];
      [|reflexivity].
    exfalso. apply not_true_iff_false in Hadd. apply Hadd.
    apply to_add_spec. exists suffix. split; [exact Ha|]. split; [|exact Hno].
    unfold new_address. rewrite Ha. change (default "" (Some ?a)) with a.
    rewrite <- !prefix_suffix, substring_from_app. reflexivity.
Qed.

End RuleCounts.

Lemma scene_writes fetch put_ok old new sceneIds req :
  In req (snd (scene_step fetch put_ok old new sceneIds)) -> r_method req = "PUT" ->
  (exists sceneId state,
     req = PUT V1 ("scenes/" +:+ sceneId +:+ "/lightstates/" +:+ new) (VObj state))
  \/ (exists sceneId lights,
        req = PUT V1 ("scenes/" +:+ sceneId)
                (VObj [("lights", VArr (map VStr (lights ++ [new])))])
        /\ ~ In new lights).
Proof.
  unfold scene_step.
  pose proof (discover_calls fetch old sceneIds) as Hcalls.
  destruct (discover_scenes fetch old sceneIds) as [found calls].
  cbn [fst snd] in *. subst calls.
  intros [<- | Hin] Hput; [discriminate Hput|].
  apply in_app_or in Hin as [Hin | Hin].
  - apply in_map_iff in Hin as (sceneId & <- & _). discriminate Hput.
  - apply in_flat_map in Hin as ([sceneId sc] & _ & Hin).
    apply modify_scene_calls in Hin
      as [(states & state & _ & _ & ->) | (lights & _ & _ & Hn & ->)]; eauto.
Qed.

(** C4, as the spec states it, fails for rules: two conditions on the same
    address of the old light are each checked against the original list, so
    both are copied and the payload holds two items at the new address,
    which the original rule did not hold. *)
Lemma no_duplicate_counterexample :
  let c1 := {| address := Some "/lights/5/state/bri";
               fields := [("operator", VStr "gt"); ("value", VStr "10")] |} in
  let c2 := {| address := Some "/lights/5/state/bri";
               fields := [("operator", VStr "lt"); ("value", VStr "200")] |} in
  let r := {| conditions := Some [c1; c2]; actions := None |} in
  ~ In (Some "/lights/7/state/bri") (map address [c1; c2])
  /\ exists payload submitted,
       rule_update "5" "7" r = Some payload
       /\ p_conditions payload = Some submitted
       /\ map address submitted
          = [Some "/lights/5/state/bri"; Some "/lights/5/state/bri";
             Some "/lights/7/state/bri"; Some "/lights/7/state/bri"].
Proof.
  cbv zeta. split; [intros [H | [H | []]]; discriminate H|].
  eexists. eexists. split; [vm_compute; reflexivity|].
  split; [reflexivity | vm_compute; reflexivity].
Qed.

(** C4 (amended): a migration adds no reference that the list it is added to
    already holds.  For rules, with the number of items of an array at an
    address: at an address [/lights/{new}/suffix] that the original array
    lacks, the submitted array has one item for each item that the original
    array has at [/lights/{old}/suffix]; at every other address it has as
    many items as the original array.  So an address is held twice by the
    submitted array, and more often than by the original one, only as the
    new address of two original items that share one address of the old
    light; and when no two items share an address of the old light, no
    address is held more often than once or than it was.  The scanner leaves
    the number of references to the new light in an array as it was, or
    takes it from none to one; a group light list and a scene light list are
    written as a list that lacks the new bulb followed by the new bulb. *)
Theorem no_duplicate_reference :
  (forall old new original needsUpdate,
     let submitted := fst (migrate_items old new (Some original) needsUpdate) in
     let count items a := count_occ string_dec (omap address items) a in
     (forall suffix,
        count submitted ("/lights/" +:+ new +:+ "/" +:+ suffix)
        = match count original ("/lights/" +:+ new +:+ "/" +:+ suffix) with
          | 0 => count original ("/lights/" +:+ old +:+ "/" +:+ suffix)
          | S k => S k
          end)
     /\ (forall a, (forall suffix, a <> "/lights/" +:+ new +:+ "/" +:+ suffix) ->
                   count submitted a = count original a)
     /\ (forall a, 1 < count submitted a -> count original a < count submitted a ->
           exists suffix,
             a = "/lights/" +:+ new +:+ "/" +:+ suffix
             /\ count original a = 0
             /\ count original ("/lights/" +:+ old +:+ "/" +:+ suffix) = count submitted a)
     /\ ((forall suffix, count original ("/lights/" +:+ old +:+ "/" +:+ suffix) <= 1) ->
         forall a, count submitted a <= Nat.max 1 (count original a)))
  /\ (forall oldGuid newGuid t,
        exists t' modified,
          addLightReference (scan_fuel t) t (Some oldGuid) (Some newGuid)
          = Some (t', modified)
          /\ forall p items items',
               subval t p = Some (VArr items) -> subval t' p = Some (VArr items') ->
               count_refs (Some newGuid) items' = count_refs (Some newGuid) items
               \/ (count_refs (Some newGuid) items = 0
                   /\ count_refs (Some newGuid) items' = 1))
  /\ (forall ok old new groups req,
        In req (snd (group_migration ok old new groups)) -> r_method req = "PUT" ->
        exists groupId currentLights,
          req = PUT V1 ("groups/" +:+ groupId)
                  (VObj [("lights", VArr (map VStr (currentLights ++ [new])))])
          /\ ~ In new currentLights)
  /\ (forall fetch put_ok old new sceneIds req,
        In req (snd (scene_step fetch put_ok old new sceneIds)) ->
        r_method req = "PUT" ->
        (exists sceneId state,
           req = PUT V1 ("scenes/" +:+ sceneId +:+ "/lightstates/" +:+ new) (VObj state))
        \/ (exists sceneId lights,
              req = PUT V1 ("scenes/" +:+ sceneId)
                      (VObj [("lights", VArr (map VStr (lights ++ [new])))])
              /\ ~ In new lights)).
Proof.
  split; [|split; [|split]].
  - intros old new original needsUpdate. cbv zeta.
    rewrite migrate_items_eq. cbn [fst].
    assert (Hnew : forall suffix,
              count_occ string_dec
                (omap address
                   (map copy_item original
                    ++ map (readdress old new)
                         (List.filter (to_add old new (Some original)) original)))
                ("/lights/" +:+ new +:+ "/" +:+ suffix)
              = match count_occ string_dec (omap address original)
                        ("/lights/" +:+ new +:+ "/" +:+ suffix) with
                | 0 => count_occ string_dec (omap address original)
                         ("/lights/" +:+ old +:+ "/" +:+ suffix)
                | S k => S k
                end).
    { intros suffix. rewrite count_addresses_app, count_addresses_copy.
      destruct (count_occ string_dec (omap address original)
                  ("/lights/" +:+ new +:+ "/" +:+ suffix)) as [|k] eqn:Hc.
      - apply count_occ_not_In in Hc. rewrite In_addresses in Hc.
        rewrite (count_added_missing old new original original suffix Hc). reflexivity.
      - rewrite count_added_held; [lia|].
        apply In_addresses, (count_occ_In string_dec). lia. }
    assert (Hother : forall a,
              (forall suffix, a <> "/lights/" +:+ new +:+ "/" +:+ suffix) ->
              count_occ string_dec
                (omap address
                   (map copy_item original
                    ++ map (readdress old new)
                         (List.filter (to_add old new (Some original)) original))) a
              = count_occ string_dec (omap address original) a).
    { intros a Ha. rewrite count_addresses_app, count_addresses_copy.
      rewrite (count_added_other old new original original a Ha). lia. }
    assert (Hcases : forall a,
              (exists suffix, a = "/lights/" +:+ new +:+ "/" +:+ suffix)
              \/ forall suffix, a <> "/lights/" +:+ new +:+ "/" +:+ suffix).
    { intros a. destruct (startsWith a (lightAddressPrefix new)) eqn:Hs.
      - left. apply startsWith_split in Hs. eexists. rewrite <- prefix_suffix. exact Hs.
      - right. intros suffix ->. rewrite <- prefix_suffix, startsWith_app in Hs.
        discriminate Hs. }
    split; [exact Hnew|]. split; [exact Hother|]. split.
    + intros a Htwice Hmore. destruct (Hcases a) as [[suffix ->] | Ha].
      * exists suffix. split; [reflexivity|]. rewrite Hnew in Hmore, Htwice |- *.
        destruct (count_occ string_dec (omap address original)
                    ("/lights/" +:+ new +:+ "/" +:+ suffix)); [auto | lia].
      * rewrite (Hother a Ha) in Hmore. lia.
    + intros Hone a. destruct (Hcases a) as [[suffix ->] | Ha].
      * rewrite Hnew. specialize (Hone suffix).
        destruct (count_occ string_dec (omap address original)
                    ("/lights/" +:+ new +:+ "/" +:+ suffix)); lia.
      * rewrite (Hother a Ha). lia.
  - intros oldGuid newGuid t.
    set (old := Some oldGuid). set (new := Some newGuid).
    exists (scan_tree old new t), (scan_mod old new t). split.
    + apply scanner_result. unfold scan_fuel. lia.
    + intros p items items' Hsub Hsub'.
      destruct (reached old t p) eqn:Hr.
      * rewrite (subval_scan_reached old new p t _ Hsub Hr) in Hsub'.
        cbn [scan_tree] in Hsub'.
        destruct (existsb (is_light_ref old) items); simpl in Hsub'.
        -- destruct (existsb (is_light_ref new) items) eqn:Hnew; simpl in Hsub';
             injection Hsub' as <-.
           ++ left. apply count_refs_selem.
           ++ right. rewrite count_refs_app, count_refs_selem.
              rewrite (count_refs_none new items Hnew). simpl.
              rewrite is_light_ref_mk_ref. auto.
        -- injection Hsub' as <-. left. apply count_refs_selem.
      * rewrite (subval_scan_unreached old new p t _ Hsub Hr) in Hsub'.
        injection Hsub' as <-. left. reflexivity.
  - intros ok old new groups req. unfold group_migration.
    destruct (ok (GET V1 "groups")).
    + destruct (add_to_groups ok new (groupsWithOldLight old groups) groups)
        as [groups' calls] eqn:Hrun.
      cbn [snd]. intros [<- | Hin] Hput; [discriminate Hput|].
      replace calls with (snd (add_to_groups ok new (groupsWithOldLight old groups) groups))
        in Hin by (rewrite Hrun; reflexivity).
      eapply group_puts; eauto.
    + cbn [snd]. intros [<- | []] Hput. discriminate Hput.
  - intros fetch put_ok old new sceneIds req. apply scene_writes.
Qed.

(** ** The scenarios of the spec, run on the model *)


(** C10 on a rule with one condition and one action on light 5. *)
Lemma rule_frame_witness :
  let c := {| address := Some "/lights/5/state/on";
              fields := [("operator", VStr "eq"); ("value", VStr "true")] |} in
  let a := {| address := Some "/lights/5/state";
              fields := [("method", VStr "PUT"); ("body", VObj [("on", VBool true)])] |} in
  let r := {| conditions := Some [c]; actions := Some [a] |} in
  exists original added,
    conditions r = Some original
    /\ [c; readdress "5" "7" c] = original ++ added
    /\ added_from "5" "7" original added.
Proof.
  cbv zeta.
  refine (proj1 (rule_frame "5" "7"
                   {| conditions := Some [_]; actions := Some [_] |}
                   {| p_conditions := Some [_; _]; p_actions := Some [_; _] |}
                   _ _ _) _ eq_refl).
  - intros items [= <-]. reflexivity.
  - intros items [= <-]. reflexivity.
  - vm_compute. reflexivity.
Defined.

Example automation_scenario :
  addLightReference 20
    (VObj [("targets", VArr [mk_ref (Some "guidA"); mk_ref (Some "guidB")])])
    (Some "guidA") (Some "guidC")
  = Some (VObj [("targets",
                 VArr [mk_ref (Some "guidA"); mk_ref (Some "guidB");
                       mk_ref (Some "guidC")])], true).
Proof. reflexivity. Qed.

Example three_sibling_sequences :
  let a := mk_ref (Some "guidA") in
  let c := mk_ref (Some "guidC") in
  addLightReference 20
    (VObj [("x", VArr [a]); ("y", VArr [VNum 1; a]); ("z", VObj [("w", VArr [a; a])])])
    (Some "guidA") (Some "guidC")
  = Some (VObj [("x", VArr [a; c]); ("y", VArr [VNum 1; a; c]);
                ("z", VObj [("w", VArr [a; a; c])])], true).
Proof. reflexivity. Qed.

Example rule_rerun_adds_nothing :
  let c := {| address := Some "/lights/5/state/on"; fields := [("operator", VStr "dx")] |} in
  rule_update "5" "7"
    {| conditions := Some [c; readdress "5" "7" c]; actions := None |} = None.
Proof. reflexivity. Qed.

Example alternate_rename_scenario :
  replacement
    {| allV1Lights := Some [("5", {| name := "Lamp" |}); ("7", {| name := "Lamp2" |})];
       v1ToV2IdMap := Some (build_v1ToV2IdMap
                              [{| id := "guidA"; id_v1 := Some "/lights/5" |};
                               {| id := "guidB"; id_v1 := Some "/lights/7" |}]) |}
    (Some "5") (Some "7") true (VObj [("mode", VStr "safety")])
    {| b_ok := fun _ => true; b_groups := []; b_scenesData := Ok [];
       b_scene := fun _ => Err "not available";
       b_rulesData := Err "HTTP error! Status: 500"; b_behaviorData := Ok None;
       b_instance := fun _ => Err "not available" |}
  = Some ([Api (GET V1 "groups"); Api (GET V1 "scenes"); Api (GET V1 "rules");
           Api (GET V2 "resource/behavior_instance");
           Api (PUT V1 "lights/7" (VObj [("name", VStr "Lamp (new)")]));
           Api (PUT V2 "resource/light/guidB"
                  (VObj [("metadata", VObj [("name", VStr "Lamp (new)")])]));
           Api (PUT V1 "lights/7/config"
                  (VObj [("startup", VObj [("mode", VStr "safety")])]))],
          true).
Proof. vm_compute. reflexivity. Qed.

(** A run whose read of the scene list fails stops there: the groups have
    been written, and no bulb is renamed. *)
Example scene_list_failure_ends_run :
  replacement
    {| allV1Lights := Some [("5", {| name := "Lamp" |}); ("7", {| name := "Lamp2" |})];
       v1ToV2IdMap := Some ∅ |}
    (Some "5") (Some "7") false VUndef
    {| b_ok := fun _ => true;
       b_groups := [("1", {| g_lights := Some ["5"; "9"] |})];
       b_scenesData := Err "HTTP error! Status: 500";
       b_scene := fun _ => Err "not available";
       b_rulesData := Ok []; b_behaviorData := Ok (Some []);
       b_instance := fun _ => Err "not available" |}
  = Some ([Api (GET V1 "groups"); Api (GET V1 "groups/1");
           Api (PUT V1 "groups/1" (VObj [("lights", VArr [VStr "5"; VStr "9"; VStr "7"])]));
           Api (GET V1 "scenes")],
          false).
Proof. vm_compute. reflexivity. Qed.

Example group_second_run :
  let groups := [("1", {| g_lights := Some ["5"; "9"] |})] in
  let once := group_migration (fun _ => true) "5" "7" groups in
  fst once = [("1", {| g_lights := Some ["5"; "9"; "7"] |})]
  /\ group_migration (fun _ => true) "5" "7" (fst once)
     = (fst once, [GET V1 "groups"; GET V1 "groups/1"]).
Proof. split; reflexivity. Qed.

Example scene_fetch_failure :
  let sc := {| s_lights := Some ["5"]; s_lightstates := None |} in
  let fetch := fun sceneId => if String.eqb sceneId "b" then Err "HTTP error! Status: 500"
                              else Ok sc in
  scene_step fetch (fun _ => true) "5" "7" ["a"; "b"; "c"]
  = ([("a", sc); ("c", sc)],
     [GET V1 "scenes"; scene_get "a"; scene_get "b"; scene_get "c";
      PUT V1 "scenes/a" (VObj [("lights", str_array ["5"; "7"])]);
      PUT V1 "scenes/c" (VObj [("lights", str_array ["5"; "7"])])]).
Proof. reflexivity. Qed.

(** The scanner tests for the new reference by [rid] and [rtype] alone: an
    element with more fields counts, and nothing is appended. *)
Example scanner_dedup_by_match :
  let t := VArr [mk_ref (Some "guidA");
                 VObj [("rid", VStr "guidC"); ("rtype", VStr "light"); ("note", VStr "x")]] in
  addLightReference (scan_fuel t) t (Some "guidA") (Some "guidC") = Some (t, false).
Proof. reflexivity. Qed.

(** * Further properties of the code *)

(** ** Substrings *)

Lemma includes_eq s sub :
  includes s sub =
  if startsWith s sub then true
  else match s with
       | EmptyString => false
       | String _ s' => includes s' sub
       end.
Proof. destruct s; reflexivity. Qed.

Lemma includes_spec s sub :
  includes s sub = true <-> exists pre post, s = pre +:+ sub +:+ post.
Proof.
  split.
  - induction s as [|c s IH]; rewrite includes_eq.
    + destruct (startsWith "" sub) eqn:Hs; [|discriminate].
      intros _. exists "", (substring_from (String.length sub) "").
      apply startsWith_split, Hs.
    + destruct (startsWith (String c s) sub) eqn:Hs.
      * intros _. exists "", (substring_from (String.length sub) (String c s)).
        apply startsWith_split, Hs.
      * intros H. destruct (IH H) as (pre & post & ->).
        exists (String c pre), post. reflexivity.
  - intros (pre & post & ->). induction pre as [|c pre IH].
    + rewrite append_nil_l, includes_eq, startsWith_app. reflexivity.
    + rewrite append_cons, includes_eq.
      destruct (startsWith _ sub); [reflexivity | exact IH].
Qed.

Lemma includes_app_r a b sub : includes b sub = true -> includes (a +:+ b) sub = true.
Proof.
  rewrite !includes_spec. intros (pre & post & ->).
  exists (a +:+ pre), post. rewrite append_assoc. reflexivity.
Qed.

Lemma includes_app_l a b sub : includes a sub = true -> includes (a +:+ b) sub = true.
Proof.
  rewrite !includes_spec. intros (pre & post & ->).
  exists pre, (post +:+ b). rewrite !append_assoc. reflexivity.
Qed.

Lemma includes_trans a b c :
  includes a b = true -> includes b c = true -> includes a c = true.
Proof.
  rewrite !includes_spec. intros (p1 & q1 & ->) (p2 & q2 & ->).
  exists (p1 +:+ p2), (q2 +:+ q1). rewrite !append_assoc. reflexivity.
Qed.

Lemma includes_refl a : includes a a = true.
Proof. apply includes_spec. exists "", "". rewrite append_nil_l, append_nil_r. reflexivity. Qed.

(** ** The transport *)

Lemma base_url_https (base path : string) :
  correct_url (("https://" +:+ base) +:+ path) = (("https://" +:+ base) +:+ path, false).
Proof.
  unfold correct_url. rewrite append_assoc, startsWith_app. reflexivity.
Qed.

(** X1: with a user name, every call the handlers make is fetched at the URL
    they built, without rewriting; a call to the modern API carries the
    application key, whatever its method, and a call to the legacy API never
    does. *)
Theorem calls_carry_key (bridgeIp apiUser : string) (r : request) :
  apiUser <> "" ->
  correct_url (a_url (call_args bridgeIp apiUser r))
  = (a_url (call_args bridgeIp apiUser r), false)
  /\ match r_api r with
     | V2 =>
       In ("hue-application-key", apiUser)
          (request_headers (call_args bridgeIp apiUser r))
     | V1 =>
       forall key, ~ In ("hue-application-key", key)
                        (request_headers (call_args bridgeIp apiUser r))
     end.
Proof.
  intros Huser. unfold call_args. destruct (r_api r); cbn [a_url]; split.
  - unfold apiV1BaseUrl. rewrite !append_assoc, <- append_assoc. apply base_url_https.
  - intros key. unfold request_headers. cbn [a_apiUsername truthy_str].
    rewrite andb_false_r. cbn [andb app].
    destruct (match a_body _ with Some b => truthy b | None => false end);
      [intros [H | []]; discriminate | intros []].
  - unfold apiV2BaseUrl. rewrite !append_assoc, <- append_assoc. apply base_url_https.
  - unfold request_headers. cbn [a_url a_apiUsername a_method a_forceV2Header].
    assert (Hv2 : is_v2_url (apiV2BaseUrl bridgeIp +:+ r_path r) = true).
    { unfold is_v2_url, apiV2BaseUrl. apply includes_spec.
      exists ("https://" +:+ bridgeIp), (r_path r). rewrite !append_assoc. reflexivity. }
    assert (Ht : truthy_str (Some apiUser) = true)
      by (destruct apiUser; [congruence | reflexivity]).
    rewrite Hv2, Ht. destruct (String.eqb (r_method r) "GET"); left; reflexivity.
Qed.

(** X1 on the rename of a bulb through the modern API. *)
Lemma calls_carry_key_witness :
  In ("hue-application-key", "user1")
     (request_headers (call_args "192.168.1.2" "user1" (v2_rename "guidA" "Lamp"))).
Proof.
  exact (proj2 (calls_carry_key "192.168.1.2" "user1" (v2_rename "guidA" "Lamp")
                  ltac:(discriminate))).
Defined.

Lemma http_url_corrected rest :
  startsWith ("https:" +:+ rest) "https://" = startsWith ("http:" +:+ rest) "http://".
Proof. reflexivity. Qed.

Lemma https_not_http rest : startsWith ("https:" +:+ rest) "http:" = false.
Proof. reflexivity. Qed.

(** X2: the URL fetched starts with [https://] exactly when the URL given
    starts with [https://] or [http://]; any other URL (another scheme, or
    [http:] without the two slashes) is fetched without that prefix, with
    a warning only.  No warning is logged exactly for a URL that starts
    with [https://], and correcting twice changes nothing more. *)
Theorem https_correction (url : string) :
  (startsWith (fst (correct_url url)) "https://" = true
   <-> startsWith url "https://" = true \/ startsWith url "http://" = true)
  /\ (snd (correct_url url) = false <-> startsWith url "https://" = true)
  /\ fst (correct_url (fst (correct_url url))) = fst (correct_url url).
Proof.
  destruct (startsWith url "https://") eqn:Hs.
  - assert (E : correct_url url = (url, false))
      by (unfold correct_url; rewrite Hs; reflexivity).
    rewrite !E. cbn [fst snd]. rewrite E. cbn [fst]. tauto.
  - destruct (startsWith url "http:") eqn:Hh.
    + set (rest := substring_from 5 url).
      assert (E : correct_url url = ("https:" +:+ rest, true))
        by (unfold correct_url; rewrite Hs, Hh; reflexivity).
      apply startsWith_split in Hh. change (String.length "http:") with 5 in Hh.
      fold rest in Hh.
      rewrite !E. cbn [fst snd]. split; [|split].
      * rewrite http_url_corrected, <- Hh. split; [auto|].
        intros [H | H]; [discriminate | exact H].
      * split; discriminate.
      * unfold correct_url. rewrite https_not_http.
        destruct (startsWith ("https:" +:+ rest) "https://"); reflexivity.
    + assert (E : correct_url url = (url, true))
        by (unfold correct_url; rewrite Hs, Hh; reflexivity).
      rewrite !E. cbn [fst snd]. rewrite E. cbn [fst]. split; [|split].
      * rewrite Hs. split; [discriminate|].
        intros [H | H]; [discriminate|].
        assert (Hp : startsWith url "http:" = true).
        { apply startsWith_split in H. rewrite H.
          change "http://" with ("http:" +:+ "//"). rewrite append_assoc.
          apply startsWith_app. }
        congruence.
      * split; discriminate.
      * reflexivity.
Qed.






Example warning_read_throws :
  apiRequest (call_args "192.168.1.2" "user1" (GET V2 "resource/light"))
    (Responded {| status := 200; content_type := Some "application/json";
                  json_body := Ok (VObj [("errors", VArr [VNull])]);
                  text_body := Err "body stream already read" |})
  = Err "Cannot read properties of null (reading 'description')".
Proof. reflexivity. Qed.

(** ** More on the scanner *)

Lemma scan_unchanged old new v :
  scan_mod old new v = false -> scan_tree old new v = v.
Proof.
  induction v as [| | b | n | s | items IH | props IH] using value_ind';
    try reflexivity.
  - cbn [scan_mod scan_tree]. intros H. apply orb_false_iff in H as [Hel Hpush].
    rewrite Hpush. clear Hpush. f_equal.
    induction IH as [|x items Hx _ IHl]; [reflexivity|].
    cbn [existsb] in Hel. apply orb_false_iff in Hel as [Hx' Hel].
    cbn [map]. rewrite IHl by exact Hel. f_equal.
    destruct (is_light_ref old x); [reflexivity|]. apply Hx, Hx'.
  - cbn [scan_mod scan_tree]. intros H. f_equal.
    induction IH as [|[k x] props Hx _ IHl]; [reflexivity|].
    cbn [existsb] in H. apply orb_false_iff in H as [Hx' H].
    cbn [map]. rewrite IHl by exact H. simpl in Hx. rewrite Hx by exact Hx'.
    reflexivity.
Qed.

Lemma scan_changed old new v :
  scan_mod old new v = true -> scan_tree old new v <> v.
Proof.
  intros Hmod Heq.
  apply scan_mod_iff in Hmod as (p & items & Hsub & Hreach & Hpush).
  pose proof (subval_scan_reached old new p v _ Hsub Hreach) as Hsub'.
  rewrite Heq, Hsub in Hsub'. cbn [scan_tree] in Hsub'. rewrite Hpush in Hsub'.
  injection Hsub' as Hitems. apply (f_equal (@length value)) in Hitems.
  rewrite length_app, length_map in Hitems. simpl in Hitems. lia.
Qed.

(** X4: the flag is exact, whatever the two GUIDs are ([undefined]
    included): the scanner returns [false] exactly when it leaves the tree
    as it was. *)
Theorem scanner_flag_exact (oldLightRid newLightRid : option string) (t : value) :
  exists t' modified,
    (forall extra,
       addLightReference (scan_fuel t + extra) t oldLightRid newLightRid
       = Some (t', modified))
    /\ (modified = false <-> t' = t).
Proof.
  exists (scan_tree oldLightRid newLightRid t), (scan_mod oldLightRid newLightRid t).
  split.
  - intros extra. apply scanner_result. unfold scan_fuel. lia.
  - split; [apply scan_unchanged|].
    intros Heq. destruct (scan_mod oldLightRid newLightRid t) eqn:Hmod; [|reflexivity].
    exfalso. exact (scan_changed _ _ _ Hmod Heq).
Qed.

Lemma scan_mod_same r v : scan_mod r r v = false.
Proof.
  induction v as [| | b | n | s | items IH | props IH] using value_ind';
    try reflexivity.
  - cbn [scan_mod]. rewrite andb_negb_r, orb_false_r.
    induction IH as [|x items Hx _ IHl]; [reflexivity|].
    cbn [existsb]. rewrite Hx, IHl, andb_false_r. reflexivity.
  - cbn [scan_mod].
    induction IH as [|[k x] props Hx _ IHl]; [reflexivity|].
    cbn [existsb]. simpl in Hx. rewrite Hx, IHl. reflexivity.
Qed.

(** X5: when the two GUIDs are the same, or both [undefined], the scanner
    changes nothing and returns [false]. *)
Theorem scanner_same_guid (rid : option string) (t : value) (extra : nat) :
  addLightReference (scan_fuel t + extra) t rid rid = Some (t, false).
Proof.
  rewrite scanner_result by (unfold scan_fuel; lia).
  rewrite scan_mod_same, scan_unchanged by apply scan_mod_same. reflexivity.
Qed.

(** ** More on the automation migrator *)

Lemma json_copy_undef v : json_copy v = VUndef <-> v = VUndef.
Proof. destruct v; simpl; split; congruence. Qed.

Lemma is_json_json_copy v : v <> VUndef -> is_json (json_copy v) = true.
Proof.
  induction v as [| | b | n | s | items IH | props IH] using value_ind';
    try reflexivity; try congruence; intros _.
  - cbn [json_copy is_json].
    induction IH as [|x items Hx _ IHl]; [reflexivity|].
    cbn [map forallb]. rewrite IHl, andb_true_r.
    destruct x; try reflexivity; apply Hx; discriminate.
  - cbn [json_copy is_json].
    induction IH as [|[k x] props Hx _ IHl]; [reflexivity|].
    cbn [flat_map]. simpl in Hx.
    destruct x; try exact IHl; cbn [app forallb snd]; rewrite IHl, andb_true_r;
      try reflexivity; apply Hx; discriminate.
Qed.

Lemma is_json_scan old (newGuid : string) v :
  is_json v = true -> is_json (scan_tree old (Some newGuid) v) = true.
Proof.
  induction v as [| | b | n | s | items IH | props IH] using value_ind';
    try (intros H; exact H).
  - cbn [scan_tree is_json]. intros H.
    assert (Hmap : forallb is_json
                     (map (fun x => if is_light_ref old x then x
                                    else scan_tree old (Some newGuid) x) items) = true).
    { induction IH as [|x items Hx _ IHl]; [reflexivity|].
      cbn [forallb] in H. apply andb_true_iff in H as [H1 H2].
      cbn [map forallb]. rewrite IHl by exact H2.
      destruct (is_light_ref old x).
      - rewrite H1. reflexivity.
      - rewrite (Hx H1). reflexivity. }
    destruct (_ && _); [|exact Hmap].
    rewrite forallb_app, Hmap. reflexivity.
  - cbn [scan_tree is_json]. intros H.
    induction IH as [|[k x] props Hx _ IHl]; [reflexivity|].
    cbn [forallb] in H. apply andb_true_iff in H as [H1 H2].
    cbn [map forallb snd]. simpl in Hx, H1. rewrite (Hx H1), (IHl H2). reflexivity.
Qed.

Lemma scan_mod_container old new v :
  scan_mod old new v = true -> truthy (scan_tree old new v) = true.
Proof. destruct v; try discriminate; reflexivity. Qed.

Lemma update_instance_inv old new instanceId c req :
  In req (update_instance old new instanceId (Ok (Some c))) ->
  truthy c = true
  /\ scan_mod old new (json_copy c) = true
  /\ req = PUT V2 (instance_path instanceId)
             (VObj [("configuration", scan_tree old new (json_copy c))]).
Proof.
  unfold update_instance. destruct (truthy c); [|intros []].
  rewrite scanner_result by (unfold scan_fuel; lia).
  destruct (scan_mod old new (json_copy c)); [|intros []].
  intros [<- | []]. auto.
Qed.

(** X6: with the new GUID known, a configuration that is written holds no
    [undefined]: the body the bridge reads is the body the script built. *)
Theorem automation_writes_json (old : option string) (newGuid instanceId : string)
    (detail : result (option value)) :
  Forall (fun req =>
            exists config',
              req = PUT V2 (instance_path instanceId) (VObj [("configuration", config')])
              /\ is_json config' = true
              /\ json_copy (VObj [("configuration", config')])
                 = VObj [("configuration", config')])
         (update_instance old (Some newGuid) instanceId detail).
Proof.
  apply Forall_forall. intros req Hreq. apply list_elem_of_In in Hreq.
  destruct detail as [[c|]|msg]; try (destruct Hreq; fail).
  apply update_instance_inv in Hreq as (Ht & _ & ->).
  assert (Hj : is_json (scan_tree old (Some newGuid) (json_copy c)) = true).
  { apply is_json_scan, is_json_json_copy. intros ->. discriminate. }
  eexists. split; [reflexivity|]. split; [exact Hj|].
  apply json_copy_id. simpl. rewrite Hj. reflexivity.
Qed.

(** X7: once a configuration has been written, a run on what was written
    writes nothing: the scanner finds the new reference beside the old
    one. *)
Theorem automation_rerun (oldGuid newGuid instanceId : string) (c c' : value) :
  oldGuid <> newGuid ->
  update_instance (Some oldGuid) (Some newGuid) instanceId (Ok (Some c))
  = [PUT V2 (instance_path instanceId) (VObj [("configuration", c')])] ->
  update_instance (Some oldGuid) (Some newGuid) instanceId (Ok (Some c')) = [].
Proof.
  intros Hne Hfirst.
  assert (Hin : In (PUT V2 (instance_path instanceId) (VObj [("configuration", c')]))
                   (update_instance (Some oldGuid) (Some newGuid) instanceId (Ok (Some c))))
    by (rewrite Hfirst; left; reflexivity).
  apply update_instance_inv in Hin as (Ht & Hmod & Heq).
  injection Heq as ->.
  set (v := json_copy c) in *.
  assert (Hj : is_json (scan_tree (Some oldGuid) (Some newGuid) v) = true).
  { apply is_json_scan, is_json_json_copy. intros ->. discriminate. }
  unfold update_instance.
  rewrite (scan_mod_container _ _ _ Hmod), (json_copy_id _ Hj).
  rewrite scanner_result by (unfold scan_fuel; lia).
  destruct (scan_twice _ _ (distinct_refs oldGuid newGuid Hne) v) as [_ ->].
  reflexivity.
Qed.

(** X7 on the automation scenario of the spec. *)
Lemma automation_rerun_witness :
  update_instance (Some "guidA") (Some "guidC") "inst1"
    (Ok (Some (VObj [("targets",
                      VArr [mk_ref (Some "guidA"); mk_ref (Some "guidB");
                            mk_ref (Some "guidC")])]))) = [].
Proof.
  apply (automation_rerun "guidA" "guidC" "inst1"
           (VObj [("targets", VArr [mk_ref (Some "guidA"); mk_ref (Some "guidB")])])).
  - discriminate.
  - vm_compute. reflexivity.
Defined.

Lemma includes_join sep l x : In x l -> includes (join sep l) x = true.
Proof.
  induction l as [|y l IH]; [intros []|].
  intros Hin. destruct l as [|z l].
  - destruct Hin as [-> | []]. apply includes_refl.
  - change (join sep (y :: z :: l)) with (y +:+ sep +:+ join sep (z :: l)).
    destruct Hin as [-> | Hin].
    + apply includes_app_l, includes_refl.
    + apply includes_app_r, includes_app_r, IH, Hin.
Qed.

Lemma stringify_array items :
  stringify (VArr items) = "[" +:+ join "," (map stringify items) +:+ "]".
Proof. reflexivity. Qed.

Lemma stringify_object props :
  stringify (VObj props)
  = "{" +:+ join ","
              (flat_map (fun '(k, x) => match x with
                                        | VUndef => []
                                        | _ => [json_string k +:+ ":" +:+ stringify x]
                                        end) props) +:+ "}".
Proof. reflexivity. Qed.

Lemma includes_bracketed (l r body x : string) :
  includes body x = true -> includes (l +:+ body +:+ r) x = true.
Proof. intros H. apply includes_app_r, includes_app_l, H. Qed.

Lemma stringify_prop k x (props : list (string * value)) :
  In (k, x) props -> x <> VUndef ->
  includes (stringify (VObj props)) (json_string k +:+ ":" +:+ stringify x) = true.
Proof.
  intros Hin Hx. rewrite stringify_object. apply includes_bracketed, includes_join.
  apply in_flat_map. exists (k, x). split; [exact Hin|].
  destruct x; try congruence; left; reflexivity.
Qed.

(** The text of a value contains the text of every node inside it. *)
Lemma stringify_subval :
  forall p v w,
    subval v p = Some w -> w <> VUndef ->
    includes (stringify v) (stringify w) = true.
Proof.
  induction p as [|i p IH]; intros v w Hsub Hw.
  - simpl in Hsub. injection Hsub as ->. apply includes_refl.
  - simpl in Hsub. destruct (children v !! i) as [c|] eqn:Hc; [|discriminate].
    assert (Hcw : includes (stringify c) (stringify w) = true) by (apply IH; assumption).
    assert (Hcu : c <> VUndef).
    { intros ->. destruct p; simpl in Hsub; [congruence | discriminate]. }
    apply (includes_trans _ (stringify c)); [|exact Hcw].
    destruct v as [| | b | n | s | items | props]; simpl in Hc; try discriminate.
    + rewrite stringify_array. apply includes_bracketed, includes_join.
      apply in_map, list_elem_of_In, list_elem_of_lookup. eauto.
    + rewrite list_lookup_fmap in Hc.
      destruct (props !! i) as [[k x]|] eqn:Hp; [|discriminate].
      simpl in Hc. injection Hc as ->.
      apply (includes_trans _ (json_string k +:+ ":" +:+ stringify c)).
      * apply stringify_prop; [|exact Hcu].
        apply list_elem_of_In, list_elem_of_lookup. eauto.
      * apply includes_app_r, includes_app_r, includes_refl.
Qed.

Lemma stringify_light_ref g x :
  escape g = g -> is_light_ref (Some g) x = true ->
  x <> VUndef /\ includes (stringify x) g = true.
Proof.
  intros Hesc Href. unfold is_light_ref in Href.
  destruct x as [| | b | n | s | items | props]; try discriminate.
  split; [discriminate|].
  apply andb_true_iff in Href as [Href _]. apply andb_true_iff in Href as [_ Href].
  simpl in Href. destruct (assoc "rid" props) as [rid|] eqn:Hrid; [|discriminate].
  destruct rid; try discriminate. simpl in Href. apply String.eqb_eq in Href as ->.
  apply assoc_In in Hrid.
  apply (includes_trans _ (json_string "rid" +:+ ":" +:+ stringify (VStr g))).
  - apply stringify_prop; [exact Hrid | discriminate].
  - apply includes_app_r, includes_app_r.
    change (stringify (VStr g)) with (json_string g). unfold json_string.
    rewrite Hesc. apply includes_app_r, includes_app_l, includes_refl.
Qed.

Lemma stringify_json_copy v : stringify (json_copy v) = stringify v.
Proof.
  induction v as [| | b | n | s | items IH | props IH] using value_ind';
    try reflexivity.
  - cbn [json_copy]. rewrite !stringify_array. do 3 f_equal.
    induction IH as [|x items Hx _ IHl]; [reflexivity|].
    cbn [map]. rewrite IHl. f_equal. destruct x; try reflexivity; exact Hx.
  - cbn [json_copy]. rewrite !stringify_object. do 3 f_equal.
    induction IH as [|[k x] props Hx _ IHl]; [reflexivity|].
    cbn [flat_map]. rewrite flat_map_app, IHl. f_equal. simpl in Hx.
    destruct x; try reflexivity; cbn [flat_map app]; rewrite <- Hx; reflexivity.
Qed.

(** X8: the pre-filter of line 782 does not hide work.  For a GUID that
    JSON writes without escapes, a configuration whose deep copy the scanner
    would change has the GUID in its text. *)
Theorem prefilter_sound (oldGuid : string) (newLightRid : option string)
    (config config' : value) :
  escape oldGuid = oldGuid ->
  addLightReference (scan_fuel (json_copy config)) (json_copy config)
    (Some oldGuid) newLightRid = Some (config', true) ->
  includes (stringify config) oldGuid = true.
Proof.
  intros Hesc Hscan.
  rewrite scanner_result in Hscan by (unfold scan_fuel; lia).
  injection Hscan as _ Hmod.
  apply scan_mod_iff in Hmod as (p & items & Hsub & _ & Hpush).
  apply andb_true_iff in Hpush as [Hold _].
  apply existsb_exists in Hold as (x & Hin & Hx).
  destruct (stringify_light_ref oldGuid x Hesc Hx) as [Hxu Hxg].
  rewrite <- stringify_json_copy.
  apply (includes_trans _ (stringify (VArr items))).
  - apply (stringify_subval p); [exact Hsub | discriminate].
  - apply (includes_trans _ (stringify x)); [|exact Hxg].
    rewrite stringify_array. apply includes_bracketed, includes_join, in_map, Hin.
Qed.

(** X8 on the automation scenario of the spec. *)
Lemma prefilter_sound_witness :
  includes
    (stringify (VObj [("targets", VArr [mk_ref (Some "guidA"); mk_ref (Some "guidB")])]))
    "guidA" = true.
Proof.
  refine (prefilter_sound "guidA" (Some "guidC") _ _ _ _);
    [reflexivity | vm_compute; reflexivity].
Defined.

(** X9: the automation step calls the bridge only for instances that have
    an id and a configuration whose text mentions the old GUID (the text
    [undefined] when the GUID is missing); every call is a modern call
    addressed to such an instance. *)
Theorem behavior_calls_candidates (oldLightV2Id newLightV2Id : option string)
    (fetch : string -> result (option value))
    (allBehaviorInstances : list behavior_instance) :
  Forall (fun req =>
            r_api req = V2
            /\ exists instance instanceId,
                 In instance allBehaviorInstances
                 /\ bi_id instance = Some instanceId /\ instanceId <> ""
                 /\ truthy (bi_configuration instance) = true
                 /\ includes (stringify (bi_configuration instance))
                      (to_string oldLightV2Id) = true
                 /\ r_path req = instance_path instanceId)
         (behavior_step oldLightV2Id newLightV2Id fetch allBehaviorInstances).
Proof.
  induction allBehaviorInstances as [|instance rest IH]; [constructor|].
  assert (IH' : Forall (fun req =>
            r_api req = V2
            /\ exists instance0 instanceId,
                 In instance0 (instance :: rest)
                 /\ bi_id instance0 = Some instanceId /\ instanceId <> ""
                 /\ truthy (bi_configuration instance0) = true
                 /\ includes (stringify (bi_configuration instance0))
                      (to_string oldLightV2Id) = true
                 /\ r_path req = instance_path instanceId)
         (behavior_step oldLightV2Id newLightV2Id fetch rest)).
  { eapply Forall_impl; [exact IH|].
    intros req (Hapi & i0 & id0 & Hin & H). split; [exact Hapi|].
    exists i0, id0. split; [right; exact Hin | exact H]. }
  cbn [behavior_step].
  destruct (truthy_str (bi_id instance)) eqn:Hid; [|exact IH'].
  destruct (truthy (bi_configuration instance)) eqn:Hcfg; [|exact IH'].
  cbn [negb orb].
  apply truthy_str_Some in Hid as (instanceId & Hid & Hne).
  destruct (JSON_stringify (bi_configuration instance)) as [configString|] eqn:Hs;
    [|exact IH'].
  assert (configString = stringify (bi_configuration instance)) as ->.
  { unfold JSON_stringify in Hs. destruct (bi_configuration instance); congruence. }
  destruct (includes _ (to_string oldLightV2Id)) eqn:Hinc; [|exact IH'].
  assert (Hthis : forall req, r_api req = V2 -> r_path req = instance_path instanceId ->
            r_api req = V2
            /\ exists instance0 instanceId0,
                 In instance0 (instance :: rest)
                 /\ bi_id instance0 = Some instanceId0 /\ instanceId0 <> ""
                 /\ truthy (bi_configuration instance0) = true
                 /\ includes (stringify (bi_configuration instance0))
                      (to_string oldLightV2Id) = true
                 /\ r_path req = instance_path instanceId0).
  { intros req Hapi Hpath. split; [exact Hapi|].
    exists instance, instanceId. repeat split; auto. left. reflexivity. }
  rewrite Hid. cbn [to_string].
  constructor; [apply Hthis; reflexivity|].
  apply Forall_app. split; [|exact IH'].
  apply Forall_forall. intros req Hreq. apply list_elem_of_In in Hreq.
  destruct (fetch instanceId) as [[c|]|msg]; try (destruct Hreq; fail).
  apply update_instance_inv in Hreq as (_ & _ & ->). apply Hthis; reflexivity.
Qed.

(** ** More on the rule migrator *)

Section RuleRuns.

Variables old new : string.

Lemma migrate_items_pair original needs :
  migrate_items old new original needs
  = (fst (migrate_items old new original false),
     needs || needs_items old new original).
Proof.
  destruct original as [items|]; [|simpl; rewrite orb_false_r; reflexivity].
  rewrite !migrate_items_eq. reflexivity.
Qed.

Lemma migrated_nil original :
  fst (migrate_items old new original false) = []
  <-> original = None \/ original = Some [].
Proof.
  destruct original as [items|]; [|simpl; tauto].
  rewrite migrate_items_eq. cbn [fst]. split.
  - intros H. apply app_eq_nil in H as [H _]. apply map_eq_nil in H. right. congruence.
  - intros [H | H]; [discriminate|]. injection H as ->. reflexivity.
Qed.

Lemma needs_items_nonempty original :
  needs_items old new original = true ->
  fst (migrate_items old new original false) <> [].
Proof.
  intros Hn Hnil. apply migrated_nil in Hnil as [-> | ->]; discriminate.
Qed.

Lemma nonempty_length {A} (l : list A) : l <> [] -> Nat.ltb 0 (length l) = true.
Proof. destruct l; [congruence | reflexivity]. Qed.

(** The update of a rule in closed form. *)
Lemma rule_update_eq r :
  rule_update old new r =
  if needs_items old new (conditions r) || needs_items old new (actions r) then
    Some {| p_conditions :=
              if Nat.ltb 0 (length (fst (migrate_items old new (conditions r) false)))
              then Some (fst (migrate_items old new (conditions r) false)) else None;
            p_actions :=
              if Nat.ltb 0 (length (fst (migrate_items old new (actions r) false)))
              then Some (fst (migrate_items old new (actions r) false)) else None |}
  else None.
Proof.
  unfold rule_update.
  rewrite (migrate_items_pair (conditions r) false) at 1. cbn [orb].
  rewrite (migrate_items_pair (actions r) (needs_items old new (conditions r))).
  destruct (needs_items old new (conditions r)) eqn:Hc.
  - cbn [orb p_conditions p_actions].
    rewrite (nonempty_length _ (needs_items_nonempty _ Hc)). reflexivity.
  - cbn [orb]. destruct (needs_items old new (actions r)) eqn:Ha; [|reflexivity].
    cbn [p_conditions p_actions].
    rewrite (nonempty_length _ (needs_items_nonempty _ Ha)).
    destruct (Nat.ltb 0 _); reflexivity.
Qed.

End RuleRuns.

Lemma needs_items_addresses old new original :
  needs_items old new original = true
  <-> exists items suffix fs,
        original = Some items
        /\ In {| address := Some ("/lights/" +:+ old +:+ "/" +:+ suffix); fields := fs |}
              items
        /\ ~ In (Some ("/lights/" +:+ new +:+ "/" +:+ suffix)) (map address items).
Proof.
  destruct original as [items|]; cbn [needs_items].
  - rewrite existsb_exists. split.
    + intros (it & Hin & Hadd).
      apply to_add_spec in Hadd as (suffix & Ha & _ & Hno).
      exists items, suffix, (fields it). split; [reflexivity|]. split; [|exact Hno].
      destruct it as [a fs]. cbn [address fields] in *. rewrite <- Ha. exact Hin.
    + intros (items' & suffix & fs & [= <-] & Hin & Hno).
      eexists. split; [exact Hin|]. apply to_add_spec. exists suffix.
      split; [reflexivity|]. split; [|exact Hno].
      unfold new_address. cbn [address]. change (default "" (Some ?a)) with a.
      rewrite <- !prefix_suffix, substring_from_app. reflexivity.
  - split; [discriminate | intros (? & ? & ? & ? & _); discriminate].
Qed.

(** X10: a rule is written exactly when one of its two arrays holds an item
    at an address [/lights/{old}/suffix] while no item of that same array is
    at [/lights/{new}/suffix]. *)
Theorem rule_written_iff (old new : string) (r : rule) :
  is_Some (rule_update old new r)
  <-> exists items suffix fs,
        (conditions r = Some items \/ actions r = Some items)
        /\ In {| address := Some ("/lights/" +:+ old +:+ "/" +:+ suffix); fields := fs |}
              items
        /\ ~ In (Some ("/lights/" +:+ new +:+ "/" +:+ suffix)) (map address items).
Proof.
  rewrite rule_update_eq. split.
  - destruct (needs_items old new (conditions r)) eqn:Hc.
    + intros _. apply needs_items_addresses in Hc as (items & suffix & fs & H & H').
      exists items, suffix, fs. auto.
    + destruct (needs_items old new (actions r)) eqn:Ha.
      * intros _. apply needs_items_addresses in Ha as (items & suffix & fs & H & H').
        exists items, suffix, fs. auto.
      * intros [x Hx]. discriminate.
  - intros (items & suffix & fs & [H | H] & H').
    + assert (Hc : needs_items old new (conditions r) = true)
        by (apply needs_items_addresses; eauto).
      rewrite Hc. eexists. reflexivity.
    + assert (Ha : needs_items old new (actions r) = true)
        by (apply needs_items_addresses; eauto).
      rewrite Ha, orb_true_r. eexists. reflexivity.
Qed.

(** X10 on two rules with the same condition on light 5: the one that has
    the condition on light 7 already is not written, the other one is. *)
Lemma rule_written_iff_witness :
  let c := {| address := Some "/lights/5/state/on"; fields := [("operator", VStr "dx")] |} in
  let c' := {| address := Some "/lights/7/state/on"; fields := [("operator", VStr "dx")] |} in
  is_Some (rule_update "5" "7" {| conditions := Some [c]; actions := None |})
  /\ ~ is_Some (rule_update "5" "7" {| conditions := Some [c; c']; actions := None |}).
Proof.
  cbv zeta. split.
  - apply (proj2 (rule_written_iff "5" "7" _)).
    exists [ {| address := Some "/lights/5/state/on";
                fields := [("operator", VStr "dx")] |} ],
           "state/on", [("operator", VStr "dx")].
    split; [left; reflexivity|]. split; [left; reflexivity|].
    intros [H | []]; discriminate H.
  - intros H.
    apply (proj1 (rule_written_iff "5" "7" _)) in H
      as (items & suffix & fs & [Hitems | Hitems] & Hin & Hno); [|discriminate Hitems].
    injection Hitems as <-.
    destruct Hin as [Hin | [Hin | []]]; [|discriminate Hin].
    apply (f_equal address) in Hin. cbn [address] in Hin.
    assert (Hs : "/lights/5/" +:+ "state/on" = "/lights/5/" +:+ suffix)
      by exact (f_equal (default "") Hin).
    apply append_inj_l in Hs as <-.
    apply Hno. right. left. reflexivity.
Defined.

(** X11: the payload of a written rule carries the conditions array exactly
    when the rule has at least one condition, and the actions array exactly
    when it has at least one action, whichever of the two was changed. *)
Theorem rule_payload_arrays (old new : string) (r : rule) (payload : rule_payload) :
  rule_update old new r = Some payload ->
  (p_conditions payload = None <-> conditions r = None \/ conditions r = Some [])
  /\ (p_actions payload = None <-> actions r = None \/ actions r = Some []).
Proof.
  rewrite rule_update_eq. destruct (_ || _); [|discriminate].
  intros [= <-]. cbn [p_conditions p_actions].
  split; rewrite <- (migrated_nil old new).
  - destruct (fst (migrate_items old new (conditions r) false)); simpl;
      split; intros H; first [reflexivity | discriminate H].
  - destruct (fst (migrate_items old new (actions r) false)); simpl;
      split; intros H; first [reflexivity | discriminate H].
Qed.

(** X11 on a rule with one condition and no action: the payload has no
    actions array. *)
Lemma rule_payload_arrays_witness :
  let c := {| address := Some "/lights/5/state/on"; fields := [("operator", VStr "dx")] |} in
  (p_actions {| p_conditions := Some [c; readdress "5" "7" c]; p_actions := None |} = None
   <-> actions {| conditions := Some [c]; actions := None |} = None
       \/ actions {| conditions := Some [c]; actions := None |} = Some []).
Proof.
  cbv zeta.
  refine (proj2 (rule_payload_arrays "5" "7"
                   {| conditions := Some [_]; actions := None |} _ _)).
  vm_compute. reflexivity.
Defined.

Lemma startsWith_common p a b : startsWith (p +:+ a) (p +:+ b) = startsWith a b.
Proof.
  induction p as [|c p IH]; [reflexivity|].
  rewrite !append_cons. cbn [startsWith]. rewrite Ascii.eqb_refl. exact IH.
Qed.

Lemma digit_not_slash c : is_digit c = true -> Ascii.eqb c "/" = false.
Proof.
  intros H. apply Ascii.eqb_neq. intros ->. discriminate.
Qed.

Lemma startsWith_other_id :
  forall old new s,
    all_digits old = true -> all_digits new = true -> old <> new ->
    startsWith ((new +:+ "/") +:+ s) (old +:+ "/") = false.
Proof.
  induction old as [|c old IH]; intros new s Ho Hn Hne.
  - destruct new as [|d new]; [congruence|].
    cbn [all_digits] in Hn. apply andb_true_iff in Hn as [Hd _].
    rewrite !append_cons, append_nil_l. cbn [startsWith].
    rewrite Ascii.eqb_sym, (digit_not_slash d Hd). reflexivity.
  - cbn [all_digits] in Ho. apply andb_true_iff in Ho as [Hc Ho].
    destruct new as [|d new].
    + rewrite append_nil_l, !append_cons. cbn [startsWith].
      rewrite (digit_not_slash c Hc). reflexivity.
    + cbn [all_digits] in Hn. apply andb_true_iff in Hn as [_ Hn].
      rewrite !append_cons. cbn [startsWith].
      destruct (Ascii.eqb c d) eqn:Hcd; [|reflexivity].
      apply Ascii.eqb_eq in Hcd as ->. apply IH; [assumption | assumption | congruence].
Qed.

Lemma new_prefix_not_old old new s :
  all_digits old = true -> all_digits new = true -> old <> new ->
  startsWith (lightAddressPrefix new +:+ s) (lightAddressPrefix old) = false.
Proof.
  intros Ho Hn Hne. unfold lightAddressPrefix.
  rewrite !append_assoc, startsWith_common, <- append_assoc.
  apply startsWith_other_id; assumption.
Qed.

Section RuleRerun.

Variables old new : string.
Hypothesis digits_old : all_digits old = true.
Hypothesis digits_new : all_digits new = true.
Hypothesis distinct_ids : old <> new.

Lemma readdressed_no_prefix it : has_old_prefix old (readdress old new it) = false.
Proof.
  unfold has_old_prefix, readdress, new_address. cbn [address].
  apply new_prefix_not_old; assumption.
Qed.

Lemma to_add_copy original it :
  to_add old new original (copy_item it) = to_add old new original it.
Proof. reflexivity. Qed.

(** Nothing is left to add to an array that has been migrated. *)
Lemma migrated_needs_nothing items :
  let migrated := fst (migrate_items old new (Some items) false) in
  existsb (to_add old new (Some migrated)) migrated = false.
Proof.
  cbv zeta. rewrite migrate_items_eq. cbn [fst].
  set (added := List.filter (to_add old new (Some items)) items).
  set (migrated := map copy_item items ++ map (readdress old new) added).
  apply not_true_iff_false. intros H.
  apply existsb_exists in H as (it & Hin & Hadd).
  unfold to_add in Hadd. apply andb_true_iff in Hadd as [Hpre Hno].
  apply negb_true_iff in Hno.
  apply in_app_or in Hin as [Hin | Hin].
  - apply in_map_iff in Hin as (it0 & <- & Hin0).
    change (new_address old new (copy_item it0)) with (new_address old new it0) in Hno.
    change (has_old_prefix old (copy_item it0)) with (has_old_prefix old it0) in Hpre.
    assert (Hex : itemAddressExists (Some migrated) (new_address old new it0) = true).
    { apply itemAddressExists_In. unfold migrated, addresses. rewrite omap_app.
      fold (addresses (map copy_item items)).
      fold (addresses (map (readdress old new) added)).
      rewrite addresses_copy, addresses_readdress. apply elem_of_app.
      destruct (itemAddressExists (Some items) (new_address old new it0)) eqn:He.
      - left. apply itemAddressExists_In, He.
      - right. apply list_elem_of_In, in_map, filter_In. split; [exact Hin0|].
        unfold to_add. rewrite Hpre, He. reflexivity. }
    congruence.
  - apply in_map_iff in Hin as (it0 & <- & _).
    rewrite readdressed_no_prefix in Hpre. discriminate.
Qed.

Lemma stored_needs_nothing original :
  needs_items old new
    (match (if Nat.ltb 0 (length (fst (migrate_items old new original false)))
            then Some (fst (migrate_items old new original false)) else None) with
     | Some items => Some items
     | None => original
     end) = false.
Proof.
  destruct (Nat.ltb 0 (length (fst (migrate_items old new original false)))) eqn:Hlen.
  - destruct original as [items|]; [|discriminate].
    cbn [needs_items]. apply migrated_needs_nothing.
  - assert (Hnil : fst (migrate_items old new original false) = [])
      by (destruct (fst (migrate_items old new original false)); [reflexivity | discriminate]).
    apply migrated_nil in Hnil as [-> | ->]; reflexivity.
Qed.

End RuleRerun.

(** X12: for two distinct numeric ids, a rule that has been written is not
    written again: on the rule the bridge then holds, the update step finds
    nothing to add. *)
Theorem rule_rerun (old new : string) (r : rule) (payload : rule_payload) :
  all_digits old = true -> all_digits new = true -> old <> new ->
  rule_update old new r = Some payload ->
  rule_update old new (apply_payload r payload) = None.
Proof.
  intros Ho Hn Hne Hup. rewrite rule_update_eq in Hup.
  destruct (_ || _); [|discriminate]. injection Hup as <-.
  rewrite rule_update_eq. unfold apply_payload. cbn [conditions actions p_conditions p_actions].
  rewrite !stored_needs_nothing by assumption. reflexivity.
Qed.

(** X12 on a rule with a condition and an action on light 5. *)
Lemma rule_rerun_witness :
  let c := {| address := Some "/lights/5/state/on"; fields := [("operator", VStr "dx")] |} in
  let a := {| address := Some "/lights/5/state"; fields := [("method", VStr "PUT")] |} in
  rule_update "5" "7"
    (apply_payload {| conditions := Some [c]; actions := Some [a] |}
       {| p_conditions := Some [c; readdress "5" "7" c];
          p_actions := Some [a; readdress "5" "7" a] |}) = None.
Proof.
  cbv zeta.
  apply (rule_rerun "5" "7");
    [reflexivity | reflexivity | discriminate | vm_compute; reflexivity].
Defined.

(** ** More on the scene migrator *)

(** X13: the writes of a scene do not depend on what happened to other
    scenes.  For every scene of the list whose fetch succeeded, whatever the
    bridge answers to any call: if the scene has a state for the old bulb,
    the copy of exactly that state to the new bulb is attempted; and if its
    light list holds the old bulb and lacks the new one, the list with the
    new bulb appended is attempted too, provided the scene has no state for
    the old bulb or the copy was accepted. *)
Theorem scene_writes_attempted (fetch : string -> result scene)
    (put_ok : request -> bool) (old new sceneId : string) (sceneIds : list string)
    (sc : scene) :
  In sceneId sceneIds -> fetch sceneId = Ok sc ->
  let calls := snd (scene_step fetch put_ok old new sceneIds) in
  let list_write :=
    PUT V1 ("scenes/" +:+ sceneId)
      (VObj [("lights", str_array (default [] (s_lights sc) ++ [new]))]) in
  (forall oldLightState,
     lightstate_of sc old = Some oldLightState ->
     In (state_copy new sceneId oldLightState) calls
     /\ (put_ok (state_copy new sceneId oldLightState) = true ->
         opt_includes (s_lights sc) old = true ->
         opt_includes (s_lights sc) new = false ->
         In list_write calls))
  /\ (lightstate_of sc old = None ->
      opt_includes (s_lights sc) old = true ->
      opt_includes (s_lights sc) new = false ->
      In list_write calls).
Proof.
  intros Hin Hfetch. cbv zeta. unfold scene_step.
  pose proof (discover_found fetch old sceneIds sceneId sc) as Hfound.
  destruct (discover_scenes fetch old sceneIds) as [found calls]. cbn [fst snd] in *.
  assert (Hmod : forall req,
            involves_old old sc = true ->
            In req (modify_scene put_ok old new (sceneId, sc)) ->
            In req (GET V1 "scenes" :: calls
                    ++ flat_map (modify_scene put_ok old new) found)).
  { intros req Hinv Hreq. right. apply in_or_app. right.
    apply in_flat_map. exists (sceneId, sc). split; [|exact Hreq].
    apply Hfound. auto. }
  split.
  - intros st Hst.
    assert (Hinv : involves_old old sc = true).
    { unfold involves_old. rewrite Hst. rewrite bool_decide_eq_true_2 by eauto.
      apply orb_true_r. }
    split.
    + apply Hmod; [exact Hinv|]. unfold modify_scene. rewrite Hst.
      fold (state_copy new sceneId st). destruct (put_ok _); left; reflexivity.
    + intros Hok Hold Hnew. apply Hmod; [exact Hinv|].
      unfold modify_scene. rewrite Hst. fold (state_copy new sceneId st).
      rewrite Hok. right. unfold scene_lights_update. rewrite Hold, Hnew.
      left. reflexivity.
  - intros Hst Hold Hnew. apply Hmod.
    + unfold involves_old. rewrite Hold. reflexivity.
    + unfold modify_scene. rewrite Hst. unfold scene_lights_update.
      rewrite Hold, Hnew. left. reflexivity.
Qed.

(** X13 where the bridge refuses every call and the fetch of another scene
    fails: the state copy of scene [b] is attempted all the same. *)
Lemma scene_writes_attempted_witness :
  let st := [("on", VBool true); ("bri", VNum 200)] in
  let sc := {| s_lights := Some ["5"]; s_lightstates := Some [("5", st)] |} in
  let fetch := fun sceneId => if String.eqb sceneId "a" then Err "HTTP error! Status: 500"
                              else Ok sc in
  In (state_copy "7" "b" st)
     (snd (scene_step fetch (fun _ => false) "5" "7" ["a"; "b"])).
Proof.
  cbv zeta.
  refine (proj1 (proj1 (scene_writes_attempted _ (fun _ => false) "5" "7" "b" ["a"; "b"]
                          {| s_lights := Some ["5"];
                             s_lightstates :=
                               Some [("5", [("on", VBool true); ("bri", VNum 200)])] |}
                          _ _) _ eq_refl)).
  - right. left. reflexivity.
  - reflexivity.
Defined.

(** ** The selection and the start of a run *)

(** X14: for selections taken from the fetched collection, the start button
    is enabled exactly when the click handler goes past its guards: both
    bulbs chosen and distinct. *)
Theorem start_button_matches_guard (lights : list (string * v1light))
    (m : gmap string string) (oldValue newValue : string) :
  (oldValue = "" \/ In oldValue (map fst lights)) ->
  (newValue = "" \/ In newValue (map fst lights)) ->
  let c := updateConfirmation lights oldValue newValue in
  c_startDisabled c = false
  <-> is_Some (start_plan {| allV1Lights := Some lights; v1ToV2IdMap := Some m |}
                 (Some (c_selectedOld c)) (Some (c_selectedNew c))).
Proof.
  intros Ho Hn. cbv zeta.
  assert (Hsel : c_selectedOld (updateConfirmation lights oldValue newValue) = oldValue
                 /\ c_selectedNew (updateConfirmation lights oldValue newValue) = newValue).
  { unfold updateConfirmation. destruct (_ && _); [destruct (String.eqb _ _)|]; auto. }
  destruct Hsel as [-> ->].
  unfold updateConfirmation, start_plan. cbn [allV1Lights v1ToV2IdMap to_string].
  destruct (truthy_str (Some oldValue)) eqn:Hto; cbn [negb orb andb].
  - destruct (truthy_str (Some newValue)) eqn:Htn; cbn [negb orb andb].
    + destruct (String.eqb oldValue newValue) eqn:Heq; cbn [c_startDisabled].
      * split; [discriminate | intros [x Hx]; discriminate].
      * destruct Ho as [-> | Ho]; [discriminate|].
        destruct Hn as [-> | Hn]; [discriminate|].
        destruct (key_assoc _ _ Ho) as [ol ->].
        destruct (key_assoc _ _ Hn) as [nl ->].
        split; [intros _; eexists; reflexivity | reflexivity].
    + cbn [c_startDisabled]. split; [discriminate | intros [x Hx]; discriminate].
  - cbn [c_startDisabled]. split; [discriminate | intros [x Hx]; discriminate].
Qed.

(** X14 on lights 5 and 7. *)
Lemma start_button_matches_guard_witness :
  let lights := [("5", {| name := "Lamp" |}); ("7", {| name := "Lamp2" |})] in
  c_startDisabled (updateConfirmation lights "5" "7") = false
  <-> is_Some (start_plan {| allV1Lights := Some lights; v1ToV2IdMap := Some ∅ |}
                 (Some (c_selectedOld (updateConfirmation lights "5" "7")))
                 (Some (c_selectedNew (updateConfirmation lights "5" "7")))).
Proof.
  cbv zeta.
  apply (start_button_matches_guard
           [("5", {| name := "Lamp" |}); ("7", {| name := "Lamp2" |})] ∅ "5" "7").
  - right. left. reflexivity.
  - right. right. left. reflexivity.
Defined.

Lemma mapped_key (m : gmap string string) k :
  list_includes (map fst (map_to_list m)) k = true <-> is_Some (m !! k).
Proof.
  rewrite list_includes_In, in_map_iff. split.
  - intros ([k' g] & Hk & Hin). simpl in Hk. subst k'.
    apply list_elem_of_In, elem_of_map_to_list in Hin. eauto.
  - intros [g Hg]. exists (k, g). split; [reflexivity|].
    apply list_elem_of_In, elem_of_map_to_list, Hg.
Qed.

Lemma filter_length_zero {A} (f : A -> bool) l :
  length (List.filter f l) = 0 <-> forall x, In x l -> f x = false.
Proof.
  induction l as [|y l IH]; simpl; [tauto|].
  destruct (f y) eqn:Hy; simpl.
  - split; [discriminate|]. intros H. specialize (H y (or_introl eq_refl)). congruence.
  - rewrite IH. split.
    + intros H x [<- | Hx]; auto.
    + intros H x Hx. apply H. right. exact Hx.
Qed.

(** X15: the fetch reports no unmapped light exactly when every legacy id
    has an entry in the map; and then every run that starts has the GUID of
    both bulbs. *)
Theorem unmapped_none (lights : list (string * v1light)) (m : gmap string string) :
  (unmappedCount lights m = 0
   <-> forall lightId, In lightId (map fst lights) -> is_Some (m !! lightId))
  /\ (unmappedCount lights m = 0 ->
      forall selOld selNew p,
        start_plan {| allV1Lights := Some lights; v1ToV2IdMap := Some m |} selOld selNew
        = Some p ->
        is_Some (oldLightV2Id p) /\ is_Some (newLightV2Id p)).
Proof.
  assert (Hiff : unmappedCount lights m = 0
                 <-> forall lightId, In lightId (map fst lights) -> is_Some (m !! lightId)).
  { unfold unmappedCount. cbv zeta. rewrite filter_length_zero. split.
    - intros H k Hk. apply mapped_key. specialize (H k Hk).
      apply negb_false_iff in H. exact H.
    - intros H k Hk. apply negb_false_iff, mapped_key, H, Hk. }
  split; [exact Hiff|].
  intros Hzero selOld selNew p Hp. rewrite Hiff in Hzero.
  apply start_plan_inv in Hp
    as (o & n & lights' & ol & nl & m' & _ & _ & _ & Hl & Hol & Hnl & Hm & ->).
  simpl in Hl, Hm. injection Hl as <-. injection Hm as <-. cbn [oldLightV2Id newLightV2Id].
  split; apply Hzero, in_map_iff.
  - exists (o, ol). split; [reflexivity | apply assoc_In, Hol].
  - exists (n, nl). split; [reflexivity | apply assoc_In, Hnl].
Qed.

(** ** Errors of the transport *)

Lemma error_details_prefix r :
  exists rest, error_details r = "HTTP error! Status: " +:+ pretty (status r) +:+ rest.
Proof.
  unfold error_details.
  assert (Hbase : forall rest : string,
            ("HTTP error! Status: " +:+ pretty (status r)) +:+ rest
            = "HTTP error! Status: " +:+ pretty (status r) +:+ rest)
    by (intros; apply append_assoc).
  assert (Htext : exists rest,
            match text_body r with
            | Ok t => ("HTTP error! Status: " +:+ pretty (status r)) +:+ " - " +:+ t
            | Err _ => "HTTP error! Status: " +:+ pretty (status r)
            end = "HTTP error! Status: " +:+ pretty (status r) +:+ rest).
  { destruct (text_body r) as [t|msg].
    - eexists. apply Hbase.
    - exists "". rewrite append_nil_r. reflexivity. }
  destruct (json_body r) as [errorData|msg]; [|exact Htext].
  cbv zeta.
  destruct (isArray errorData && _); [eexists; apply Hbase|].
  destruct (_ && _); [eexists; apply Hbase | exact Htext].
Qed.

(** X16: a response outside 200-299 always throws.  The message starts with
    [HTTP error! Status: ] and the status, whatever the body is and whether
    or not it can be read, except for a 403 or a 404 from a modern URL,
    which have their own messages. *)
Theorem apiRequest_http_error (a : api_args) (r : response) :
  response_ok r = false ->
  exists message,
    apiRequest a (Responded r) = Err message
    /\ (is_v2_url (fst (correct_url (a_url a))) = false
        \/ (status r <> 403 /\ status r <> 404) ->
        exists rest,
          message = "HTTP error! Status: " +:+ pretty (status r) +:+ rest).
Proof.
  intros Hok. unfold apiRequest. rewrite Hok. cbn [negb].
  destruct (Nat.eqb (status r) 403) eqn:H403; cbn [andb].
  - destruct (is_v2_url _) eqn:Hv2.
    + eexists. split; [reflexivity|].
      intros [H | [H _]]; [discriminate|]. apply Nat.eqb_eq in H403. contradiction.
    + assert (H404 : Nat.eqb (status r) 404 = false)
        by (apply Nat.eqb_eq in H403; rewrite H403; reflexivity).
      rewrite H404. cbn [andb]. eexists. split; [reflexivity|].
      intros _. apply error_details_prefix.
  - destruct (Nat.eqb (status r) 404) eqn:H404; cbn [andb].
    + destruct (is_v2_url _) eqn:Hv2.
      * eexists. split; [reflexivity|].
        intros [H | [_ H]]; [discriminate|]. apply Nat.eqb_eq in H404. contradiction.
      * eexists. split; [reflexivity|]. intros _. apply error_details_prefix.
    + eexists. split; [reflexivity|]. intros _. apply error_details_prefix.
Qed.

(** X16 on a legacy call answered by 500 with a body that cannot be read. *)
Lemma apiRequest_http_error_witness :
  exists message,
    apiRequest (call_args "192.168.1.2" "user1" (GET V1 "groups"))
      (Responded {| status := 500; content_type := None;
                    json_body := Err "Unexpected end of JSON input";
                    text_body := Err "body stream already read" |})
    = Err message
    /\ (is_v2_url (fst (correct_url
                          (a_url (call_args "192.168.1.2" "user1" (GET V1 "groups")))))
        = false
        \/ (500 <> 403 /\ 500 <> 404) ->
        exists rest, message = "HTTP error! Status: " +:+ pretty 500 +:+ rest).
Proof.
  apply (apiRequest_http_error
           (call_args "192.168.1.2" "user1" (GET V1 "groups"))
           {| status := 500; content_type := None;
              json_body := Err "Unexpected end of JSON input";
              text_body := Err "body stream already read" |}).
  reflexivity.
Defined.

(** ** Lookups in the identifier map *)

Lemma backrefs_app (l1 l2 : list v2light) :
  omap backref (l1 ++ l2) = omap backref l1 ++ omap backref l2.
Proof. apply omap_app. Qed.

(** X17: when no two resources of the response refer back to the same
    legacy id, the map holds the GUID of every resource at the id it refers
    back to. *)
Theorem identifier_lookup (data : list v2light) (light : v2light) (legacyId : string) :
  NoDup (omap backref data) ->
  In light data -> backref light = Some legacyId ->
  build_v1ToV2IdMap data !! legacyId = Some (id light).
Proof.
  intros Hnd Hin Hb. apply in_split in Hin as (l1 & l2 & ->).
  apply build_map_spec. exists l1, light, l2. repeat split; auto.
  intros light' Hin' Hb'.
  rewrite backrefs_app in Hnd. apply NoDup_app in Hnd as (_ & _ & Hnd).
  assert (Hcons : omap backref (light :: l2) = legacyId :: omap backref l2).
  { change (omap backref (light :: l2))
      with (match backref light with
            | Some k => k :: omap backref l2
            | None => omap backref l2
            end).
    rewrite Hb. reflexivity. }
  rewrite Hcons in Hnd. apply NoDup_cons in Hnd as [Hnotin _].
  apply Hnotin, list_elem_of_omap. exists light'.
  split; [apply list_elem_of_In, Hin' | exact Hb'].
Qed.

(** X17 on two bulbs. *)
Lemma identifier_lookup_witness :
  build_v1ToV2IdMap [{| id := "guidA"; id_v1 := Some "/lights/5" |};
                     {| id := "guidB"; id_v1 := Some "/lights/7" |}] !! "7"
  = Some "guidB".
Proof.
  apply (identifier_lookup _ {| id := "guidB"; id_v1 := Some "/lights/7" |} "7").
  - apply (bool_decide_unpack _). vm_compute. exact I.
  - right. left. reflexivity.
  - reflexivity.
Defined.
